(** * Pareto and Rayleigh samplers of the numpy random operators

    A shallow embedding of [src/operator/numpy/random/np_pareto_op.h] and
    [src/operator/numpy/random/np_rayleigh_op.h].

    Conventions of the embedding.
    - Element values in buffers ([float], [DType], [IType], [OType]) are
      read as exact real numbers [R]: [log] is [ln], [exp] is [exp], [sqrt]
      is [sqrt]; rounding and infinities are outside the model.  Two places
      where the element type changes what the code computes are modelled:
      the scalar parameter is a [float] that may be NaN, which every
      comparison of a [CHECK_*] rejects, and a product of two parameter
      elements is computed in the parameter's element type [IType], with
      wrap-around for an integer type.  The dispatch macros
      ([MSHADOW_TYPE_SWITCH], [MSHADOW_REAL_TYPE_SWITCH]) pick the C++
      instantiation for the [type_flag_] of a tensor.
      The statements below keep to arguments on which the real functions
      and the C functions are both defined ([0 < u < 1], [a <> 0]).
    - A raw pointer ([float*], [DType*]) is a buffer name; the memory of a
      call is a [heap] that maps a buffer name and an index to a value.
      Distinct buffers are distinct names, and theorems say which names
      they need to be distinct.
    - A [void] kernel without a failing path is a heap transformer; the
      operator entry points, which can stop at a failed [CHECK_*], live in
      an error-and-state monad [M] that keeps the heap reached at the
      failure. *)

From Stdlib Require Import Reals Lra Lia List Arith ZArith String Bool.
From Stdlib Require Import Ranalysis.
Import ListNotations.
Local Open Scope R_scope.

(** ** Memory *)

Definition index_t := nat.
Definition ptr := nat.
Definition heap := ptr -> index_t -> R.

Definition load (p : ptr) (i : index_t) (h : heap) : R := h p i.

Definition store (p : ptr) (i : index_t) (v : R) (h : heap) : heap :=
  fun q j => if (Nat.eqb q p && Nat.eqb j i)%bool then v else h q j.

(** ** Scalars and element types *)

(** A [float] scalar: a number, or NaN.  Infinities are outside the model. *)
Inductive float := Finite (r : R) | NaN.

(** The number a [float] denotes.  NaN denotes none; it never reaches a
    kernel, since both entry points stop at the [CHECK_*] before. *)
Definition real_of (x : float) : R :=
  match x with
  | Finite r => r
  | NaN => 0
  end.

(** Modelled from the spec: the element types a parameter tensor can have
    ([IType], picked by [MSHADOW_TYPE_SWITCH] from [type_flag_]) are declared
    in headers that are not among the sources.  [kReal] stands for the
    floating types, whose arithmetic is read as exact; [kInt bits] for a
    signed integer type whose products C++ computes in [bits] bits (32 for
    [int8], [uint8] and [int32] after promotion, 64 for [int64]). *)
Inductive ElemType := kReal | kInt (bits : Z).

(** Two's-complement wrap-around of an integer to [bits] bits. *)
Definition wrap_signed (bits z : Z) : Z :=
  ((z + 2 ^ (bits - 1)) mod 2 ^ bits - 2 ^ (bits - 1))%Z.

(** The product of two elements of a type, computed in that type and then
    read as a number: exact for a floating type, wrapped for an integer
    type (whose elements are integers). *)
Definition type_mul (t : ElemType) (x y : R) : R :=
  match t with
  | kReal => x * y
  | kInt bits => IZR (wrap_signed bits (Int_part x * Int_part y))
  end.

(** ** Shapes and tensors *)

Definition TShape := list nat.
Definition Shape := list nat.

(** [TShape::Size()]: the number of elements, the product of the dimensions. *)
Definition Size (s : TShape) : nat := fold_right Nat.mul 1%nat s.

Record TBlob := mkTBlob { dptr_ : ptr; shape_ : TShape; type_flag_ : ElemType }.

Definition TBlob_Size (b : TBlob) : nat := Size (shape_ b).

(** [Tensor<xpu, 1, float>]: a pointer and a length. *)
Record Tensor1 := mkTensor1 { t_dptr_ : ptr; t_size : nat }.

Definition FlatTo1D (b : TBlob) : Tensor1 := mkTensor1 (dptr_ b) (TBlob_Size b).

(** The resources of [OpContext] that the operators request: the uniform
    generator, read as the sequence of draws it produces in this call, and
    the one-element workspace. *)
Record OpContext := mkOpContext { prnd : index_t -> R; workspace : ptr }.

Inductive OpReqType := kNullOp | kWriteTo | kWriteInplace | kAddTo.

Record NumpyParetoParam := mkNumpyParetoParam
  { a : option float; pareto_size : option (list nat) }.

Record NumpyRayleighParam := mkNumpyRayleighParam
  { scale : option float; rayleigh_size : option (list nat) }.

(** ** Kernel launch and index helpers *)

(** Modelled from the spec: [Kernel<OP, xpu>::Launch(s, N, args...)] of
    [mxnet_op.h] is not among the sources.  The spec (section 5) has one
    unit of work per element; the units are run here for [i = 0 .. N-1] in
    increasing order. *)
Definition Launch (N : nat) (Map : index_t -> heap -> heap) (h : heap) : heap :=
  fold_left (fun h' i => Map i h') (seq 0 N) h.

(** Modelled from the spec: the [set_zero] kernel of [mxnet_op.h] writes
    zero at its index (forward contract, step 1: zero the legality flag). *)
Definition set_zero (i : index_t) (out : ptr) (h : heap) : heap := store out i 0 h.

(** Modelled from the spec: [Random::SampleUniform(&t, 0.0, 1.0)] fills the
    tensor with one uniform(0,1) draw per element (section 6,
    [sample_uniform]); [rnd i] is the draw for position [i]. *)
Definition SampleUniform (rnd : index_t -> R) (t : Tensor1) (h : heap) : heap :=
  Launch (t_size t) (fun i => store (t_dptr_ t) i (rnd i)) h.

(** Modelled from the spec: [unravel] of [mxnet_op.h] is not among the
    sources.  The coordinate of a linear index against a shape, row major:
    the last dimension varies fastest. *)
Fixpoint unravel_aux (rshape : list nat) (j : nat) (acc : list nat) : list nat :=
  match rshape with
  | [] => acc
  | d :: rest => unravel_aux rest (j / d)%nat ((j - (j / d) * d)%nat :: acc)
  end.

Definition unravel (idx : index_t) (shape : Shape) : Shape :=
  unravel_aux (rev shape) idx [].

(** Modelled from the spec: [dot] of [mxnet_op.h], the dot product of a
    coordinate with a stride vector. *)
Fixpoint dot (coord stride : Shape) : index_t :=
  match coord, stride with
  | c :: cs, s :: ss => (c * s + dot cs ss)%nat
  | _, _ => 0%nat
  end.

(** Modelled from the spec: [calc_stride] is not among the sources.  The
    glossary's stride vector: the row-major element-count multiplier of
    each dimension, zero in the dimensions being broadcast (extent one). *)
Fixpoint calc_stride (shape : Shape) : Shape :=
  match shape with
  | [] => []
  | d :: rest => (if (1 <? d)%nat then Size rest else 0%nat) :: calc_stride rest
  end.

(** The position of a coordinate in a dense row-major tensor of a shape. *)
Fixpoint ravel (coord shape : Shape) : index_t :=
  match coord, shape with
  | c :: cs, _ :: ds => (c * Size ds + ravel cs ds)%nat
  | _, _ => 0%nat
  end.

(** ** The kernels of np_pareto_op.h *)

Definition scalar_pareto_kernel
    (i : index_t) (a : R) (noise out : ptr) (h : heap) : heap :=
  store out i (exp (- ln (load noise i h) / a) - 1) h.

Definition check_legal_a_kernel (i : index_t) (a flag : ptr) (h : heap) : heap :=
  if Rle_dec (load a i h) 0 then store flag 0%nat (-1) h else h.

Definition pareto_kernel (IType : ElemType)
    (i : index_t) (stride oshape : Shape) (aparams noise out : ptr) (h : heap) : heap :=
  let coord := unravel i oshape in
  let idx := dot coord stride in
  let h1 := store noise i (- ln (load noise i h)) h in
  let h2 := store out i (exp (load noise i h1 / load aparams idx h1) - 1) h1 in
  (* get grad *)
  store noise i
    (- load noise i h2 * (load out i h2 + 1)
       * (1 / type_mul IType (load aparams idx h2) (load aparams idx h2))) h2.

(** ** The kernels of np_rayleigh_op.h *)

Definition scalar_rayleigh_kernel
    (i : index_t) (scale : R) (threshold out : ptr) (h : heap) : heap :=
  let h1 := store threshold i (sqrt (-2 * ln (load threshold i h))) h in
  store out i (scale * load threshold i h1) h1.

Definition check_legal_scale_kernel (i : index_t) (scalar flag : ptr) (h : heap) : heap :=
  if Rlt_dec (load scalar i h) 0 then store flag 0%nat (-1) h else h.

Definition rayleigh_kernel
    (i : index_t) (stride oshape : Shape) (scales threshold out : ptr) (h : heap) : heap :=
  let coord := unravel i oshape in
  let idx := dot coord stride in
  let h1 := store threshold i (sqrt (-2 * ln (load threshold i h))) h in
  store out i (load scales idx h1 * load threshold i h1) h1.

(** ** Failing computations over the heap *)

(** [CheckFailed]: a [CHECK_*] of these files did not hold, with its message.
    [ShapeError]: the shape utilities that are not among the sources
    stopped the call.  [OutOfRange]: [operator[]] past the end of a
    [std::vector], where C++ gives no meaning; the model stops there. *)
Inductive error :=
| CheckFailed (msg : string)
| ShapeError
| OutOfRange.

Definition M (A : Type) : Type := heap -> (error + A) * heap.

Definition ret {A} (x : A) : M A := fun h => (inr x, h).

Definition bind {A B} (m : M A) (k : A -> M B) : M B :=
  fun h => match m h with
           | (inr x, h') => k x h'
           | (inl e, h') => (inl e, h')
           end.

Definition throw {A} (e : error) : M A := fun h => (inl e, h).

Definition lift (f : heap -> heap) : M unit := fun h => (inr tt, f h).

Definition read (p : ptr) (i : index_t) : M R := fun h => (inr (load p i h), h).

Notation "x <- m ;; k" := (bind m (fun x => k))
  (at level 61, m at next level, right associativity).
Notation "m ;;; k" := (bind m (fun _ => k))
  (at level 61, right associativity).

(** [v[i]] on a [std::vector]. *)
Definition at_ {A} (v : list A) (i : nat) : M A :=
  match nth_error v i with
  | Some x => ret x
  | None => throw OutOfRange
  end.

Definition of_option {A} (o : option A) : M A :=
  match o with
  | Some x => ret x
  | None => throw ShapeError
  end.

(** [CHECK_GT(x, y)] and [CHECK_GE(x, y)] on a [float] [x]: the check
    holds when the comparison does, and a comparison with NaN does not. *)
Definition CHECK_GT (x : float) (y : R) (msg : string) : M unit :=
  match x with
  | Finite r => if Rgt_dec r y then ret tt else throw (CheckFailed msg)
  | NaN => throw (CheckFailed msg)
  end.

Definition CHECK_GE (x : float) (y : R) (msg : string) : M unit :=
  match x with
  | Finite r => if Rge_dec r y then ret tt else throw (CheckFailed msg)
  | NaN => throw (CheckFailed msg)
  end.

(** [_copy<xpu>(s, &host, device_ptr)]: the one-element read-back. *)
Definition _copy (src : ptr) : M R := read src 0%nat.

(** ** The operator entry points *)

Section Operators.

(** The shape utilities of [dist_common.h] and of the broadcast headers are
    not among the sources; the entry points take them as parameters.

    [FillShape lshape rshape oshape] gives the dimensionality and the
    canonical operand and output shapes, or stops the call ([None]).  Both
    entry points pass one object for the two operand shapes, so one
    operand shape comes back.

    [BROADCAST_NDIM_SWITCH ndim] picks the compile-time rank [NDim] for a
    dimensionality, or stops the call.

    [get NDim s] is [s.get<NDim>()], the fixed-rank view of a shape, or
    stops the call. *)
Variable FillShape : TShape -> TShape -> TShape -> option (nat * TShape * TShape).
Variable BROADCAST_NDIM_SWITCH : nat -> option nat.
Variable get : nat -> TShape -> option Shape.

(** The shared reduction of [dist_common.h], also not among the sources. *)
Variable CommonScalarReparamBackwardImpl :
  nat -> OpContext -> list TBlob -> list OpReqType -> list TBlob ->
  TShape -> TShape -> M unit.

Definition NumpyParetoForward
    (param : NumpyParetoParam) (ctx : OpContext)
    (inputs : list TBlob) (req : list OpReqType) (outputs : list TBlob) : M unit :=
  outputs1 <- at_ outputs 1 ;;
  let uniform_tensor := FlatTo1D outputs1 in
  let indicator_device_ptr := workspace ctx in
  lift (Launch 1 (fun i => set_zero i indicator_device_ptr)) ;;;
  lift (SampleUniform (prnd ctx) uniform_tensor) ;;;
  match a param with
  | Some a_value =>
      CHECK_GT a_value 0 "ValueError: expect a > 0"%string ;;;
      outputs0 <- at_ outputs 0 ;;
      lift (Launch (TBlob_Size outputs0)
              (fun i => scalar_pareto_kernel i (real_of a_value)
                          (t_dptr_ uniform_tensor) (dptr_ outputs0)))
  | None =>
      inputs0 <- at_ inputs 0 ;;
      lift (Launch (TBlob_Size inputs0)
              (fun i => check_legal_a_kernel i (dptr_ inputs0) indicator_device_ptr)) ;;;
      indicator_host <- _copy indicator_device_ptr ;;
      CHECK_GE (Finite indicator_host) 0 "ValueError: expect a > 0"%string ;;;
      outputs0 <- at_ outputs 0 ;;
      shapes <- of_option (FillShape (shape_ inputs0) (shape_ inputs0) (shape_ outputs0)) ;;
      let '(ndim, new_lshape, new_oshape) := shapes in
      NDim <- of_option (BROADCAST_NDIM_SWITCH ndim) ;;
      oshape <- of_option (get NDim new_oshape) ;;
      lshape <- of_option (get NDim new_lshape) ;;
      let stride := calc_stride lshape in
      lift (Launch (TBlob_Size outputs0)
              (fun i => pareto_kernel (type_flag_ inputs0) i stride oshape
                          (dptr_ inputs0)
                          (t_dptr_ uniform_tensor) (dptr_ outputs0)))
  end.

Definition ParetoReparamBackward
    (ctx : OpContext)
    (inputs : list TBlob) (reqs : list OpReqType) (outputs : list TBlob) : M unit :=
  inputs0 <- at_ inputs 0 ;;
  (* skip kernel launch for zero-size tensors *)
  if (Size (shape_ inputs0) =? 0)%nat then ret tt
  (* [scalar] case *)
  else if (List.length outputs =? 0)%nat then ret tt
  (* [tensor] case *)
  else if (List.length inputs =? 5)%nat then
    outputs0 <- at_ outputs 0 ;;
    shapes <- of_option (FillShape (shape_ outputs0) (shape_ outputs0) (shape_ inputs0)) ;;
    let '(ndim, new_ishape, new_oshape) := shapes in
    NDim <- of_option (BROADCAST_NDIM_SWITCH ndim) ;;
    CommonScalarReparamBackwardImpl NDim ctx inputs reqs outputs new_ishape new_oshape
  else ret tt.

Definition NumpyRayleighForward
    (param : NumpyRayleighParam) (ctx : OpContext)
    (inputs : list TBlob) (req : list OpReqType) (outputs : list TBlob) : M unit :=
  outputs1 <- at_ outputs 1 ;;
  let uniform_tensor := FlatTo1D outputs1 in
  let indicator_device_ptr := workspace ctx in
  lift (Launch 1 (fun i => set_zero i indicator_device_ptr)) ;;;
  lift (SampleUniform (prnd ctx) uniform_tensor) ;;;
  match scale param with
  | Some scale_value =>
      CHECK_GE scale_value 0 "ValueError: expect scale >= 0"%string ;;;
      outputs0 <- at_ outputs 0 ;;
      lift (Launch (TBlob_Size outputs0)
              (fun i => scalar_rayleigh_kernel i (real_of scale_value)
                          (t_dptr_ uniform_tensor) (dptr_ outputs0)))
  | None =>
      inputs0 <- at_ inputs 0 ;;
      lift (Launch (TBlob_Size inputs0)
              (fun i => check_legal_scale_kernel i (dptr_ inputs0) indicator_device_ptr)) ;;;
      indicator_host <- _copy indicator_device_ptr ;;
      CHECK_GE (Finite indicator_host) 0 "ValueError: expect scale >= 0"%string ;;;
      outputs0 <- at_ outputs 0 ;;
      shapes <- of_option (FillShape (shape_ inputs0) (shape_ inputs0) (shape_ outputs0)) ;;
      let '(ndim, new_lshape, new_oshape) := shapes in
      NDim <- of_option (BROADCAST_NDIM_SWITCH ndim) ;;
      oshape <- of_option (get NDim new_oshape) ;;
      lshape <- of_option (get NDim new_lshape) ;;
      let stride := calc_stride lshape in
      lift (Launch (TBlob_Size outputs0)
              (fun i => rayleigh_kernel i stride oshape (dptr_ inputs0)
                          (t_dptr_ uniform_tensor) (dptr_ outputs0)))
  end.

Definition RayleighReparamBackward
    (ctx : OpContext)
    (inputs : list TBlob) (req : list OpReqType) (outputs : list TBlob) : M unit :=
  inputs0 <- at_ inputs 0 ;;
  (* skip kernel launch for zero-size tensors *)
  if (Size (shape_ inputs0) =? 0)%nat then ret tt
  (* [scalar] case *)
  else if (List.length outputs =? 0)%nat then ret tt
  (* [tensor] case *)
  else if (List.length inputs =? 5)%nat then
    outputs0 <- at_ outputs 0 ;;
    shapes <- of_option (FillShape (shape_ outputs0) (shape_ outputs0) (shape_ inputs0)) ;;
    let '(ndim, new_ishape, new_oshape) := shapes in
    NDim <- of_option (BROADCAST_NDIM_SWITCH ndim) ;;
    CommonScalarReparamBackwardImpl NDim ctx inputs req outputs new_ishape new_oshape
  else ret tt.

End Operators.

(** ** Vocabulary of the statements *)

(** The comparisons of a [float] with a number, as the C++ operators give
    them: every comparison with NaN is false. *)
Definition float_gt (x : float) (y : R) : Prop :=
  match x with Finite r => r > y | NaN => False end.
Definition float_ge (x : float) (y : R) : Prop :=
  match x with Finite r => r >= y | NaN => False end.
Definition float_le (x : float) (y : R) : Prop :=
  match x with Finite r => r <= y | NaN => False end.
Definition float_lt (x : float) (y : R) : Prop :=
  match x with Finite r => r < y | NaN => False end.

(** The common form of the two check kernels: a decidable test [bad] of the
    element and, on a bad element, a store of -1 into the flag.
    [check_legal_a_kernel] is the instance [x <= 0] and
    [check_legal_scale_kernel] the instance [x < 0]. *)
Definition check_kernel (bad : R -> Prop) (bad_dec : forall x, {bad x} + {~ bad x})
    (i : index_t) (params flag : ptr) (h : heap) : heap :=
  if bad_dec (load params i h) then store flag 0%nat (-1) h else h.

(** Two heaps that differ at most in the slots of the written buffers [ws]
    other than slot [i]. *)
Definition agree_off (ws : list ptr) (i : index_t) (h h' : heap) : Prop :=
  forall q j, (In q ws -> j = i) -> h q j = h' q j.

(** A kernel is elementwise over the buffers [ws] when unit [i] writes only
    slot [i] of those buffers and what it writes there does not depend on
    their other slots. *)
Definition elementwise (ws : list ptr) (K : index_t -> heap -> heap) : Prop :=
  (forall i h q j, ~ (In q ws /\ j = i) -> K i h q j = h q j) /\
  (forall i h h', agree_off ws i h h' -> forall q, In q ws -> K i h q i = K i h' q i).

(** The units of a launch run in the order of a schedule; a data-parallel
    backend may run them in any order. *)
Definition Launch_order (order : list index_t) (Map : index_t -> heap -> heap)
    (h : heap) : heap :=
  fold_left (fun h' i => Map i h') order h.

(** The heap after the flag is zeroed and the noise buffer is filled, the
    two steps every forward call takes before it looks at its parameter. *)
Definition forward_prefix (ctx : OpContext) (outputs1 : TBlob) (h : heap) : heap :=
  SampleUniform (prnd ctx) (FlatTo1D outputs1)
    (Launch 1 (fun i => set_zero i (workspace ctx)) h).

(** The heap after the legality-check launch of the tensor path. *)
Definition pareto_checked (ctx : OpContext) (o1 i0 : TBlob) (h : heap) : heap :=
  Launch (TBlob_Size i0) (fun i => check_legal_a_kernel i (dptr_ i0) (workspace ctx))
    (forward_prefix ctx o1 h).

Definition rayleigh_checked (ctx : OpContext) (o1 i0 : TBlob) (h : heap) : heap :=
  Launch (TBlob_Size i0) (fun i => check_legal_scale_kernel i (dptr_ i0) (workspace ctx))
    (forward_prefix ctx o1 h).

(** A call stopped at a failed [CHECK_*]: the domain error of these
    operators, the only [CHECK_*] they contain. *)
Definition domain_error {A} (r : (error + A) * heap) : Prop :=
  exists msg, fst r = inl (CheckFailed msg).

(** ** A concrete call, used to instantiate the statements *)

(** Parameter of shape (3,1) in buffer 0, output and noise of shape (3,4)
    in buffers 1 and 2, the flag in buffer 3; every draw is 1/2 and every
    cell of the heap holds 2 before the call. *)
Definition ex_ctx : OpContext := mkOpContext (fun _ => 1 / 2) 3%nat.
Definition ex_in : TBlob := mkTBlob 0%nat [3; 1]%nat kReal.
Definition ex_out : TBlob := mkTBlob 1%nat [3; 4]%nat kReal.
Definition ex_noise : TBlob := mkTBlob 2%nat [3; 4]%nat kReal.
Definition ex_heap : heap := fun _ _ => 2.
Definition ex_FillShape (l r o : TShape) : option (nat * TShape * TShape) :=
  Some (2%nat, l, o).
Definition ex_SWITCH (ndim : nat) : option nat := Some 2%nat.
Definition ex_get (NDim : nat) (s : TShape) : option Shape :=
  if (List.length s =? NDim)%nat then Some s else None.

(** The heap of the concrete call with the draw 1/2 in slot 5 of the noise
    buffer, and one unit of the tensor-path Pareto kernel run on it. *)
Definition ex_unit_heap : heap := store 2%nat 5%nat (1 / 2) ex_heap.
Definition ex_pareto_unit : heap :=
  pareto_kernel kReal 5%nat [1; 0]%nat [3; 4]%nat 0%nat 2%nat 1%nat ex_unit_heap.

(** The same heap with the parameter element 1, the one slot 5 of the
    output uses, set to 46341, and one unit of the tensor-path Pareto kernel
    run on it for an [int32] parameter. *)
Definition ex_int32_heap : heap := store 0%nat 1%nat 46341 ex_unit_heap.
Definition ex_int32_unit : heap :=
  pareto_kernel (kInt 32) 5%nat [1; 0]%nat [3; 4]%nat 0%nat 2%nat 1%nat ex_int32_heap.

(** The concrete heap with the parameter element 1 set to zero. *)
Definition ex_heap_zero : heap := store 0%nat 1%nat 0 ex_heap.

(** The concrete heap with the parameter element 1 negative. *)
Definition ex_heap_neg : heap := store 0%nat 1%nat (-1) ex_heap.

(** A reduction that leaves a mark in buffer 9, to tell a delegated call
    from a skipped one. *)
Definition ex_Impl (NDim : nat) (ctx : OpContext) (inputs : list TBlob)
    (reqs : list OpReqType) (outputs : list TBlob) (ishape oshape : TShape) : M unit :=
  lift (store 9%nat 0%nat 7).

Definition ex_empty : TBlob := mkTBlob 4%nat [3; 0]%nat kReal.

(** ** The parameter structs beyond their fields *)

(** The defaults [DMLC_DECLARE_FIELD(...).set_default(...)] gives: Pareto's
    [a] is the empty optional, Rayleigh's [scale] is [optional<float>(1.0)],
    and [size] is the empty optional in both. *)
Definition NumpyParetoParam_default : NumpyParetoParam :=
  mkNumpyParetoParam None None.
Definition NumpyRayleighParam_default : NumpyRayleighParam :=
  mkNumpyRayleighParam (Some (Finite 1)) None.

(** [std::unordered_map<std::string, std::string>], read through its
    lookups: an assignment through [operator[]] at [k] makes [k] map to the
    assigned text and leaves the other keys. *)
Definition attr_dict := string -> option string.

Definition dict_assign (k v : string) (d : attr_dict) : attr_dict :=
  fun k' => if String.eqb k' k then Some v else d k'.

Section SetAttrDict.
(** [operator<<] of [dmlc::optional<float>] and of
    [dmlc::optional<mxnet::Tuple<index_t>>] is not among the sources; the
    text it produces is a parameter. *)
Variable show_float : option float -> string.
Variable show_size : option (list nat) -> string.

Definition NumpyParetoParam_SetAttrDict
    (p : NumpyParetoParam) (dict : attr_dict) : attr_dict :=
  let a_s := show_float (a p) in
  let size_s := show_size (pareto_size p) in
  dict_assign "size" size_s (dict_assign "a" a_s dict).

Definition NumpyRayleighParam_SetAttrDict
    (p : NumpyRayleighParam) (dict : attr_dict) : attr_dict :=
  let scale_s := show_float (scale p) in
  let size_s := show_size (rayleigh_size p) in
  dict_assign "size" size_s (dict_assign "scale" scale_s dict).
End SetAttrDict.

(** The slots a forward call may write: the output buffer up to its size,
    the noise buffer up to the larger of its own size and the output's, and
    slot 0 of the workspace. *)
Definition forward_footprint (ctx : OpContext) (o0 o1 : TBlob)
    (q : ptr) (j : index_t) : Prop :=
  (q = dptr_ o0 /\ (j < TBlob_Size o0)%nat) \/
  (q = dptr_ o1 /\ ((j < TBlob_Size o1)%nat \/ (j < TBlob_Size o0)%nat)) \/
  (q = workspace ctx /\ j = 0%nat).

(** The heap at the point where the transform launch starts or the call
    stops: after the legality check on the tensor path, after the common
    start otherwise. *)
Definition pareto_before_transform (ctx : OpContext) (inputs : list TBlob)
    (o1 : TBlob) (h : heap) (param : NumpyParetoParam) : heap :=
  match a param, inputs with
  | None, i0 :: _ => pareto_checked ctx o1 i0 h
  | _, _ => forward_prefix ctx o1 h
  end.

Definition rayleigh_before_transform (ctx : OpContext) (inputs : list TBlob)
    (o1 : TBlob) (h : heap) (param : NumpyRayleighParam) : heap :=
  match scale param, inputs with
  | None, i0 :: _ => rayleigh_checked ctx o1 i0 h
  | _, _ => forward_prefix ctx o1 h
  end.

(** * Properties *)

Ltac run_forward :=
  cbv beta iota zeta delta
    [NumpyParetoForward NumpyRayleighForward ParetoReparamBackward
     RayleighReparamBackward bind lift ret throw at_ of_option
     CHECK_GT CHECK_GE _copy read nth_error].

(** ** Loads, stores and launches *)

Lemma store_same p i v h : store p i v h p i = v.
Proof. unfold store. now rewrite !Nat.eqb_refl. Qed.

Lemma store_other p i v h q j : ~ (q = p /\ j = i) -> store p i v h q j = h q j.
Proof.
  intros Hne. unfold store.
  destruct (Nat.eqb_spec q p) as [Hq|Hq]; destruct (Nat.eqb_spec j i) as [Hj|Hj];
    simpl; try reflexivity.
  exfalso. apply Hne. now split.
Qed.

Lemma store_other_ptr p i v h q j : q <> p -> store p i v h q j = h q j.
Proof. intros Hne. apply store_other. now intros [Hq _]. Qed.

Lemma store_other_idx p i v h q j : j <> i -> store p i v h q j = h q j.
Proof. intros Hne. apply store_other. now intros [_ Hj]. Qed.

Lemma Launch_0 K h : Launch 0 K h = h.
Proof. reflexivity. Qed.

Lemma Launch_S N K h : Launch (S N) K h = K N (Launch N K h).
Proof.
  unfold Launch. rewrite seq_S, fold_left_app. reflexivity.
Qed.

Section LaunchElementwise.
Variable ws : list ptr.
Variable K : index_t -> heap -> heap.
Hypothesis HK : elementwise ws K.

Lemma Launch_frame N h q j :
  ~ (In q ws /\ (j < N)%nat) -> Launch N K h q j = h q j.
Proof.
  induction N as [|N IH]; intros Hout.
  - reflexivity.
  - rewrite Launch_S. destruct HK as [Hframe _].
    rewrite Hframe.
    + apply IH. intros [Hin Hlt]. apply Hout. split; [assumption | lia].
    + intros [Hin ->]. apply Hout. split; [assumption | lia].
Qed.

Lemma Launch_slot N h q j :
  In q ws -> (j < N)%nat -> Launch N K h q j = K j h q j.
Proof.
  induction N as [|N IH]; intros Hin Hlt.
  - lia.
  - rewrite Launch_S. destruct HK as [Hframe Hlocal].
    destruct (Nat.eq_dec j N) as [->|Hne].
    + apply Hlocal; [|assumption].
      intros q' j' Hq'. apply Launch_frame.
      intros [Hin' Hlt']. specialize (Hq' Hin'). lia.
    + rewrite Hframe.
      * apply IH; [assumption | lia].
      * intros [_ Heq]. contradiction.
Qed.
End LaunchElementwise.

(** An elementwise kernel gives the same heap under every schedule that runs
    each unit once: the increasing order of [Launch] stands for all of them. *)
Lemma Launch_order_slots ws K (HK : elementwise ws K) order :
  NoDup order ->
  forall h q j,
    (In q ws -> In j order -> Launch_order order K h q j = K j h q j) /\
    (~ (In q ws /\ In j order) -> Launch_order order K h q j = h q j).
Proof.
  destruct HK as [Hframe Hlocal].
  induction order as [|i rest IH]; intros Hnd h q j.
  - split; [intros _ [] | reflexivity].
  - inversion Hnd as [|? ? Hnotin Hnd']; subst.
    unfold Launch_order. simpl. fold (Launch_order rest K (K i h)).
    destruct (IH Hnd' (K i h) q j) as [IHin IHout]. split.
    + intros Hq [<-|Hj].
      * rewrite IHout by (intros [_ Hj]; contradiction). reflexivity.
      * rewrite IHin by assumption.
        apply Hlocal; [|assumption].
        intros q' j' Hq'. apply Hframe.
        intros [Hin' ->]. specialize (Hq' Hin'). subst j. contradiction.
    + intros Hout. rewrite IHout.
      * apply Hframe. intros [Hq ->]. apply Hout. split; [assumption | now left].
      * intros [Hq Hj]. apply Hout. split; [assumption | now right].
Qed.

Lemma Launch_any_order ws K (HK : elementwise ws K) N order :
  NoDup order -> (forall j, In j order <-> (j < N)%nat) ->
  forall h q j, Launch_order order K h q j = Launch N K h q j.
Proof.
  intros Hnd Hcover h q j.
  destruct (Launch_order_slots ws K HK order Hnd h q j) as [Hin Hout].
  destruct (in_dec Nat.eq_dec q ws) as [Hq|Hq].
  - destruct (lt_dec j N) as [Hj|Hj].
    + rewrite Hin by (try assumption; now apply Hcover).
      symmetry. now apply (Launch_slot ws K HK).
    + rewrite Hout by (intros [_ Hj']; apply Hj; now apply Hcover).
      symmetry. apply (Launch_frame ws K HK). now intros [_ Hj'].
  - rewrite Hout by (now intros [Hq' _]).
    symmetry. apply (Launch_frame ws K HK). now intros [Hq' _].
Qed.

(** A unit that stores one value computed from the heap into slot [i] of
    one buffer. *)
Lemma elementwise_store p (f : index_t -> heap -> R) :
  (forall i h h', agree_off [p] i h h' -> f i h = f i h') ->
  elementwise [p] (fun i h => store p i (f i h) h).
Proof.
  intros Hf. split.
  - intros i h q j Hout. apply store_other.
    intros [-> ->]. apply Hout. split; [now left | reflexivity].
  - intros i h h' Hag q [<-|[]]. rewrite !store_same. now apply Hf.
Qed.

Lemma elementwise_set_zero p : elementwise [p] (fun i => set_zero i p).
Proof. unfold set_zero. apply (elementwise_store p (fun _ _ => 0)). reflexivity. Qed.

Lemma elementwise_fill p (rnd : index_t -> R) :
  elementwise [p] (fun i => store p i (rnd i)).
Proof. apply (elementwise_store p (fun i _ => rnd i)). reflexivity. Qed.

Lemma elementwise_scalar_pareto av noise out :
  elementwise [out] (fun i => scalar_pareto_kernel i av noise out).
Proof.
  unfold scalar_pareto_kernel.
  apply (elementwise_store out (fun i h => exp (- ln (load noise i h) / av) - 1)).
  intros i h h' Hag. unfold load. rewrite (Hag noise i); auto.
Qed.

Lemma elementwise_pareto ty stride oshape aparams noise out :
  aparams <> noise -> aparams <> out ->
  elementwise [noise; out]
    (fun i => pareto_kernel ty i stride oshape aparams noise out).
Proof.
  intros Hpn Hpo. split.
  - intros i h q j Hout. unfold pareto_kernel. cbv zeta.
    assert (Hn : ~ (q = noise /\ j = i)).
    { intros [-> ->]. apply Hout. split; [now left | reflexivity]. }
    assert (Ho : ~ (q = out /\ j = i)).
    { intros [-> ->]. apply Hout. split; [right; now left | reflexivity]. }
    now rewrite !store_other.
  - intros i h h' Hag q Hin. unfold pareto_kernel, load. cbv zeta.
    set (idx := dot (unravel i oshape) stride).
    assert (Hu : h noise i = h' noise i) by (apply Hag; auto).
    assert (Ha : h aparams idx = h' aparams idx).
    { apply Hag. intros [E|[E|[]]]; congruence. }
    destruct (Nat.eq_dec q noise) as [->|Hqn].
    + rewrite !store_same.
      destruct (Nat.eq_dec noise out) as [E|E].
      * rewrite <- E. rewrite !store_same.
        rewrite !(store_other_ptr noise i _ _ aparams) by assumption.
        now rewrite Hu, Ha.
      * rewrite !(store_other_ptr out i _ _ noise) by assumption.
        rewrite !store_same.
        rewrite !(store_other_ptr out i _ _ aparams) by assumption.
        rewrite !(store_other_ptr noise i _ _ aparams) by assumption.
        now rewrite Hu, Ha.
    + destruct Hin as [E|[E|[]]]; [congruence|]. subst q.
      rewrite !(store_other_ptr noise i _ _ out) by assumption.
      rewrite !store_same.
      rewrite !(store_other_ptr noise i _ _ aparams) by assumption.
      now rewrite Hu, Ha.
Qed.

Lemma elementwise_scalar_rayleigh sv threshold out :
  elementwise [threshold; out] (fun i => scalar_rayleigh_kernel i sv threshold out).
Proof.
  split.
  - intros i h q j Hout. unfold scalar_rayleigh_kernel. cbv zeta.
    assert (Hn : ~ (q = threshold /\ j = i)).
    { intros [-> ->]. apply Hout. split; [now left | reflexivity]. }
    assert (Ho : ~ (q = out /\ j = i)).
    { intros [-> ->]. apply Hout. split; [right; now left | reflexivity]. }
    now rewrite !store_other.
  - intros i h h' Hag q Hin. unfold scalar_rayleigh_kernel, load. cbv zeta.
    assert (Hu : h threshold i = h' threshold i) by (apply Hag; auto).
    destruct (Nat.eq_dec q out) as [->|Hqo].
    + now rewrite !store_same, Hu.
    + destruct Hin as [E|[E|[]]]; [|congruence]. subst q.
      rewrite !(store_other_ptr out i _ _ threshold) by congruence.
      now rewrite !store_same, Hu.
Qed.

Lemma elementwise_rayleigh stride oshape scales threshold out :
  scales <> threshold -> scales <> out ->
  elementwise [threshold; out]
    (fun i => rayleigh_kernel i stride oshape scales threshold out).
Proof.
  intros Hpn Hpo. split.
  - intros i h q j Hout. unfold rayleigh_kernel. cbv zeta.
    assert (Hn : ~ (q = threshold /\ j = i)).
    { intros [-> ->]. apply Hout. split; [now left | reflexivity]. }
    assert (Ho : ~ (q = out /\ j = i)).
    { intros [-> ->]. apply Hout. split; [right; now left | reflexivity]. }
    now rewrite !store_other.
  - intros i h h' Hag q Hin. unfold rayleigh_kernel, load. cbv zeta.
    set (idx := dot (unravel i oshape) stride).
    assert (Hu : h threshold i = h' threshold i) by (apply Hag; auto).
    assert (Ha : h scales idx = h' scales idx).
    { apply Hag. intros [E|[E|[]]]; congruence. }
    destruct (Nat.eq_dec q out) as [->|Hqo].
    + rewrite !store_same.
      rewrite !(store_other_ptr threshold i _ _ scales) by assumption.
      now rewrite Hu, Ha.
    + destruct Hin as [E|[E|[]]]; [|congruence]. subst q.
      rewrite !(store_other_ptr out i _ _ threshold) by congruence.
      now rewrite !store_same, Hu.
Qed.

(** ** The legality-check launches *)

Section LegalityCheck.
Variable bad : R -> Prop.
Variable bad_dec : forall x, {bad x} + {~ bad x}.
Variables (params flag : ptr).
Hypothesis Hdistinct : params <> flag.

Local Abbreviation check := (fun i => check_kernel bad bad_dec i params flag).

Lemma check_frame N h q j :
  ~ (q = flag /\ j = 0%nat) -> Launch N check h q j = h q j.
Proof.
  induction N as [|N IH]; intros Hne.
  - reflexivity.
  - rewrite Launch_S. unfold check_kernel at 1.
    destruct (bad_dec _); [rewrite store_other by assumption|]; now apply IH.
Qed.

Lemma check_flag N h :
  ((exists i, (i < N)%nat /\ bad (h params i)) /\ Launch N check h flag 0%nat = -1) \/
  ((forall i, (i < N)%nat -> ~ bad (h params i)) /\
     Launch N check h flag 0%nat = h flag 0%nat).
Proof.
  induction N as [|N IH].
  - right. split; [intros i Hi; lia | reflexivity].
  - rewrite Launch_S. unfold check_kernel at 1 3. unfold load.
    rewrite (check_frame N h params N) by (intros [E _]; contradiction).
    destruct (bad_dec (h params N)) as [Hb|Hb].
    + left. split; [exists N; split; [lia | assumption] | apply store_same].
    + destruct IH as [[[i [Hi Hbad]] Hflag]|[Hall Hflag]].
      * left. split; [exists i; split; [lia | assumption] | assumption].
      * right. split; [|assumption].
        intros i Hi. destruct (Nat.eq_dec i N) as [->|Hne]; [assumption|].
        apply Hall. lia.
Qed.
End LegalityCheck.

Lemma check_legal_a_frame params flag N h q j :
  ~ (q = flag /\ j = 0%nat) ->
  Launch N (fun i => check_legal_a_kernel i params flag) h q j = h q j.
Proof. apply (check_frame (fun x => x <= 0) (fun x => Rle_dec x 0)). Qed.

Lemma check_legal_a_flag params flag N h :
  params <> flag ->
  ((exists i, (i < N)%nat /\ h params i <= 0) /\
     Launch N (fun i => check_legal_a_kernel i params flag) h flag 0%nat = -1) \/
  ((forall i, (i < N)%nat -> ~ h params i <= 0) /\
     Launch N (fun i => check_legal_a_kernel i params flag) h flag 0%nat = h flag 0%nat).
Proof.
  intros Hd. apply (check_flag (fun x => x <= 0) (fun x => Rle_dec x 0) params flag Hd).
Qed.

Lemma check_legal_scale_frame params flag N h q j :
  ~ (q = flag /\ j = 0%nat) ->
  Launch N (fun i => check_legal_scale_kernel i params flag) h q j = h q j.
Proof. apply (check_frame (fun x => x < 0) (fun x => Rlt_dec x 0)). Qed.

Lemma check_legal_scale_flag params flag N h :
  params <> flag ->
  ((exists i, (i < N)%nat /\ h params i < 0) /\
     Launch N (fun i => check_legal_scale_kernel i params flag) h flag 0%nat = -1) \/
  ((forall i, (i < N)%nat -> ~ h params i < 0) /\
     Launch N (fun i => check_legal_scale_kernel i params flag) h flag 0%nat = h flag 0%nat).
Proof.
  intros Hd. apply (check_flag (fun x => x < 0) (fun x => Rlt_dec x 0) params flag Hd).
Qed.

(** ** The common start of a forward call *)

Lemma forward_prefix_noise ctx o1 h i :
  (i < TBlob_Size o1)%nat -> forward_prefix ctx o1 h (dptr_ o1) i = prnd ctx i.
Proof.
  intros Hi. unfold forward_prefix, SampleUniform. simpl.
  rewrite (Launch_slot [dptr_ o1] _ (elementwise_fill _ _)); [|now left|assumption].
  apply store_same.
Qed.

Lemma forward_prefix_flag ctx o1 h :
  workspace ctx <> dptr_ o1 -> forward_prefix ctx o1 h (workspace ctx) 0%nat = 0.
Proof.
  intros Hd. unfold forward_prefix, SampleUniform. simpl.
  rewrite (Launch_frame [dptr_ o1] _ (elementwise_fill _ _)).
  - rewrite Launch_S, Launch_0. apply store_same.
  - intros [[E|[]] _]. congruence.
Qed.

Lemma forward_prefix_other ctx o1 h q j :
  q <> dptr_ o1 -> q <> workspace ctx -> forward_prefix ctx o1 h q j = h q j.
Proof.
  intros Hn Hw. unfold forward_prefix, SampleUniform. simpl.
  rewrite (Launch_frame [dptr_ o1] _ (elementwise_fill _ _)).
  - rewrite Launch_S, Launch_0. unfold set_zero. now apply store_other_ptr.
  - intros [[E|[]] _]. congruence.
Qed.

Section ForwardRuns.
Variable FillShape : TShape -> TShape -> TShape -> option (nat * TShape * TShape).
Variable BROADCAST_NDIM_SWITCH : nat -> option nat.
Variable get : nat -> TShape -> option Shape.

Variables (ctx : OpContext) (req : list OpReqType).
Variables (o0 o1 : TBlob) (orest : list TBlob).

Local Abbreviation W := (workspace ctx).
Local Abbreviation pareto_run :=
  (NumpyParetoForward FillShape BROADCAST_NDIM_SWITCH get).
Local Abbreviation rayleigh_run :=
  (NumpyRayleighForward FillShape BROADCAST_NDIM_SWITCH get).

Lemma pareto_scalar_ok param inputs av h :
  a param = Some (Finite av) -> av > 0 ->
  pareto_run param ctx inputs req (o0 :: o1 :: orest) h =
  (inr tt,
   Launch (TBlob_Size o0) (fun i => scalar_pareto_kernel i av (dptr_ o1) (dptr_ o0))
     (forward_prefix ctx o1 h)).
Proof.
  intros Ha Hpos. run_forward. rewrite Ha.
  destruct (Rgt_dec av 0); [reflexivity | contradiction].
Qed.

Lemma pareto_scalar_fail param inputs av h :
  a param = Some (Finite av) -> ~ av > 0 ->
  pareto_run param ctx inputs req (o0 :: o1 :: orest) h =
  (inl (CheckFailed "ValueError: expect a > 0"), forward_prefix ctx o1 h).
Proof.
  intros Ha Hneg. run_forward. rewrite Ha.
  destruct (Rgt_dec av 0); [contradiction | reflexivity].
Qed.

Lemma pareto_scalar_nan param inputs h :
  a param = Some NaN ->
  pareto_run param ctx inputs req (o0 :: o1 :: orest) h =
  (inl (CheckFailed "ValueError: expect a > 0"), forward_prefix ctx o1 h).
Proof. intros Ha. run_forward. rewrite Ha. reflexivity. Qed.

Lemma pareto_tensor_fail param i0 irest h :
  a param = None -> ~ pareto_checked ctx o1 i0 h W 0%nat >= 0 ->
  pareto_run param ctx (i0 :: irest) req (o0 :: o1 :: orest) h =
  (inl (CheckFailed "ValueError: expect a > 0"), pareto_checked ctx o1 i0 h).
Proof.
  intros Ha Hneg. run_forward. rewrite Ha.
  fold (forward_prefix ctx o1 h). fold (pareto_checked ctx o1 i0 h).
  unfold load.
  destruct (Rge_dec (pareto_checked ctx o1 i0 h W 0%nat) 0);
    [contradiction | reflexivity].
Qed.

Lemma pareto_tensor_run param i0 irest h :
  a param = None -> pareto_checked ctx o1 i0 h W 0%nat >= 0 ->
  pareto_run param ctx (i0 :: irest) req (o0 :: o1 :: orest) h =
  match FillShape (shape_ i0) (shape_ i0) (shape_ o0) with
  | Some (ndim, nl, no) =>
      match BROADCAST_NDIM_SWITCH ndim with
      | Some NDim =>
          match get NDim no, get NDim nl with
          | Some os, Some ls =>
              (inr tt,
               Launch (TBlob_Size o0)
                 (fun i => pareto_kernel (type_flag_ i0) i (calc_stride ls) os
                             (dptr_ i0) (dptr_ o1) (dptr_ o0))
                 (pareto_checked ctx o1 i0 h))
          | _, _ => (inl ShapeError, pareto_checked ctx o1 i0 h)
          end
      | None => (inl ShapeError, pareto_checked ctx o1 i0 h)
      end
  | None => (inl ShapeError, pareto_checked ctx o1 i0 h)
  end.
Proof.
  intros Ha Hpos. run_forward. rewrite Ha.
  fold (forward_prefix ctx o1 h). fold (pareto_checked ctx o1 i0 h).
  unfold load.
  destruct (Rge_dec (pareto_checked ctx o1 i0 h W 0%nat) 0); [|contradiction].
  destruct (FillShape _ _ _) as [[[ndim nl] no]|]; [|reflexivity].
  destruct (BROADCAST_NDIM_SWITCH ndim) as [NDim|]; [|reflexivity].
  destruct (get NDim no) as [os|]; [|destruct (get NDim nl); reflexivity].
  destruct (get NDim nl) as [ls|]; reflexivity.
Qed.

Lemma rayleigh_scalar_ok param inputs sv h :
  scale param = Some (Finite sv) -> sv >= 0 ->
  rayleigh_run param ctx inputs req (o0 :: o1 :: orest) h =
  (inr tt,
   Launch (TBlob_Size o0) (fun i => scalar_rayleigh_kernel i sv (dptr_ o1) (dptr_ o0))
     (forward_prefix ctx o1 h)).
Proof.
  intros Ha Hpos. run_forward. rewrite Ha.
  destruct (Rge_dec sv 0); [reflexivity | contradiction].
Qed.

Lemma rayleigh_scalar_fail param inputs sv h :
  scale param = Some (Finite sv) -> ~ sv >= 0 ->
  rayleigh_run param ctx inputs req (o0 :: o1 :: orest) h =
  (inl (CheckFailed "ValueError: expect scale >= 0"), forward_prefix ctx o1 h).
Proof.
  intros Ha Hneg. run_forward. rewrite Ha.
  destruct (Rge_dec sv 0); [contradiction | reflexivity].
Qed.

Lemma rayleigh_scalar_nan param inputs h :
  scale param = Some NaN ->
  rayleigh_run param ctx inputs req (o0 :: o1 :: orest) h =
  (inl (CheckFailed "ValueError: expect scale >= 0"), forward_prefix ctx o1 h).
Proof. intros Ha. run_forward. rewrite Ha. reflexivity. Qed.

Lemma rayleigh_tensor_fail param i0 irest h :
  scale param = None -> ~ rayleigh_checked ctx o1 i0 h W 0%nat >= 0 ->
  rayleigh_run param ctx (i0 :: irest) req (o0 :: o1 :: orest) h =
  (inl (CheckFailed "ValueError: expect scale >= 0"), rayleigh_checked ctx o1 i0 h).
Proof.
  intros Ha Hneg. run_forward. rewrite Ha.
  fold (forward_prefix ctx o1 h). fold (rayleigh_checked ctx o1 i0 h).
  unfold load.
  destruct (Rge_dec (rayleigh_checked ctx o1 i0 h W 0%nat) 0);
    [contradiction | reflexivity].
Qed.

Lemma rayleigh_tensor_run param i0 irest h :
  scale param = None -> rayleigh_checked ctx o1 i0 h W 0%nat >= 0 ->
  rayleigh_run param ctx (i0 :: irest) req (o0 :: o1 :: orest) h =
  match FillShape (shape_ i0) (shape_ i0) (shape_ o0) with
  | Some (ndim, nl, no) =>
      match BROADCAST_NDIM_SWITCH ndim with
      | Some NDim =>
          match get NDim no, get NDim nl with
          | Some os, Some ls =>
              (inr tt,
               Launch (TBlob_Size o0)
                 (fun i => rayleigh_kernel i (calc_stride ls) os
                             (dptr_ i0) (dptr_ o1) (dptr_ o0))
                 (rayleigh_checked ctx o1 i0 h))
          | _, _ => (inl ShapeError, rayleigh_checked ctx o1 i0 h)
          end
      | None => (inl ShapeError, rayleigh_checked ctx o1 i0 h)
      end
  | None => (inl ShapeError, rayleigh_checked ctx o1 i0 h)
  end.
Proof.
  intros Ha Hpos. run_forward. rewrite Ha.
  fold (forward_prefix ctx o1 h). fold (rayleigh_checked ctx o1 i0 h).
  unfold load.
  destruct (Rge_dec (rayleigh_checked ctx o1 i0 h W 0%nat) 0); [|contradiction].
  destruct (FillShape _ _ _) as [[[ndim nl] no]|]; [|reflexivity].
  destruct (BROADCAST_NDIM_SWITCH ndim) as [NDim|]; [|reflexivity].
  destruct (get NDim no) as [os|]; [|destruct (get NDim nl); reflexivity].
  destruct (get NDim nl) as [ls|]; reflexivity.
Qed.
End ForwardRuns.

(** ** The heap at the legality check *)

Section Checked.
Variables (ctx : OpContext) (o1 i0 : TBlob) (h : heap).

Lemma pareto_checked_other q j :
  ~ (q = workspace ctx /\ j = 0%nat) ->
  pareto_checked ctx o1 i0 h q j = forward_prefix ctx o1 h q j.
Proof. apply check_legal_a_frame. Qed.

Lemma rayleigh_checked_other q j :
  ~ (q = workspace ctx /\ j = 0%nat) ->
  rayleigh_checked ctx o1 i0 h q j = forward_prefix ctx o1 h q j.
Proof. apply check_legal_scale_frame. Qed.

Hypothesis Hwn : workspace ctx <> dptr_ o1.
Hypothesis Hpw : dptr_ i0 <> workspace ctx.
Hypothesis Hpn : dptr_ i0 <> dptr_ o1.

Lemma pareto_checked_flag :
  ((exists i, (i < TBlob_Size i0)%nat /\ h (dptr_ i0) i <= 0) /\
     pareto_checked ctx o1 i0 h (workspace ctx) 0%nat = -1) \/
  ((forall i, (i < TBlob_Size i0)%nat -> ~ h (dptr_ i0) i <= 0) /\
     pareto_checked ctx o1 i0 h (workspace ctx) 0%nat = 0).
Proof.
  unfold pareto_checked.
  destruct (check_legal_a_flag (dptr_ i0) (workspace ctx) (TBlob_Size i0)
              (forward_prefix ctx o1 h) Hpw) as [[[i [Hi Hb]] Hf]|[Hall Hf]].
  - left. split; [|assumption]. exists i. split; [assumption|].
    now rewrite forward_prefix_other in Hb.
  - right. split.
    + intros i Hi. specialize (Hall i Hi). now rewrite forward_prefix_other in Hall.
    + rewrite Hf. now apply forward_prefix_flag.
Qed.

Lemma rayleigh_checked_flag :
  ((exists i, (i < TBlob_Size i0)%nat /\ h (dptr_ i0) i < 0) /\
     rayleigh_checked ctx o1 i0 h (workspace ctx) 0%nat = -1) \/
  ((forall i, (i < TBlob_Size i0)%nat -> ~ h (dptr_ i0) i < 0) /\
     rayleigh_checked ctx o1 i0 h (workspace ctx) 0%nat = 0).
Proof.
  unfold rayleigh_checked.
  destruct (check_legal_scale_flag (dptr_ i0) (workspace ctx) (TBlob_Size i0)
              (forward_prefix ctx o1 h) Hpw) as [[[i [Hi Hb]] Hf]|[Hall Hf]].
  - left. split; [|assumption]. exists i. split; [assumption|].
    now rewrite forward_prefix_other in Hb.
  - right. split.
    + intros i Hi. specialize (Hall i Hi). now rewrite forward_prefix_other in Hall.
    + rewrite Hf. now apply forward_prefix_flag.
Qed.
End Checked.

Lemma domain_error_check {A} msg h : @domain_error A (inl (CheckFailed msg), h).
Proof. now exists msg. Qed.

Lemma no_domain_error_ok {A} (x : A) h : ~ domain_error (inr x, h).
Proof. intros [msg H]. discriminate. Qed.

Lemma no_domain_error_shape {A} h : ~ @domain_error A (inl ShapeError, h).
Proof. intros [msg H]. discriminate. Qed.

Section DomainCheck.
Variable FillShape : TShape -> TShape -> TShape -> option (nat * TShape * TShape).
Variable BROADCAST_NDIM_SWITCH : nat -> option nat.
Variable get : nat -> TShape -> option Shape.
Variables (ctx : OpContext) (req : list OpReqType).
Variables (i0 : TBlob) (irest : list TBlob).
Variables (o0 o1 : TBlob) (orest : list TBlob).
Variable h : heap.

Local Abbreviation pareto_run :=
  (NumpyParetoForward FillShape BROADCAST_NDIM_SWITCH get).
Local Abbreviation rayleigh_run :=
  (NumpyRayleighForward FillShape BROADCAST_NDIM_SWITCH get).

Lemma pareto_scalar_domain param inputs x :
  a param = Some x ->
  domain_error (pareto_run param ctx inputs req (o0 :: o1 :: orest) h) <->
  ~ float_gt x 0.
Proof.
  intros Ha. destruct x as [av|].
  - destruct (Rgt_dec av 0) as [Hpos|Hneg].
    + rewrite (pareto_scalar_ok _ _ _ _ _ _ _ _ _ _ _ _ Ha Hpos).
      split; [intros H; now apply no_domain_error_ok in H | intros H; now elim H].
    + rewrite (pareto_scalar_fail _ _ _ _ _ _ _ _ _ _ _ _ Ha Hneg).
      split; [intros _; exact Hneg | intros _; apply domain_error_check].
  - rewrite (pareto_scalar_nan _ _ _ _ _ _ _ _ _ _ _ Ha).
    split; [intros _ [] | intros _; apply domain_error_check].
Qed.

Lemma rayleigh_scalar_domain param inputs x :
  scale param = Some x ->
  domain_error (rayleigh_run param ctx inputs req (o0 :: o1 :: orest) h) <->
  ~ float_ge x 0.
Proof.
  intros Ha. destruct x as [sv|].
  - destruct (Rge_dec sv 0) as [Hpos|Hneg].
    + rewrite (rayleigh_scalar_ok _ _ _ _ _ _ _ _ _ _ _ _ Ha Hpos).
      split; [intros H; now apply no_domain_error_ok in H | intros H; now elim H].
    + rewrite (rayleigh_scalar_fail _ _ _ _ _ _ _ _ _ _ _ _ Ha Hneg).
      split; [intros _; exact Hneg | intros _; apply domain_error_check].
  - rewrite (rayleigh_scalar_nan _ _ _ _ _ _ _ _ _ _ _ Ha).
    split; [intros _ [] | intros _; apply domain_error_check].
Qed.

Hypothesis Hwn : workspace ctx <> dptr_ o1.
Hypothesis Hpw : dptr_ i0 <> workspace ctx.
Hypothesis Hpn : dptr_ i0 <> dptr_ o1.

Lemma pareto_tensor_domain param :
  a param = None ->
  domain_error (pareto_run param ctx (i0 :: irest) req (o0 :: o1 :: orest) h) <->
  exists i, (i < TBlob_Size i0)%nat /\ h (dptr_ i0) i <= 0.
Proof.
  intros Ha.
  destruct (pareto_checked_flag ctx o1 i0 h Hwn Hpw Hpn) as [[Hex Hf]|[Hall Hf]].
  - rewrite (pareto_tensor_fail _ _ _ _ _ _ _ _ _ _ _ _ Ha) by (rewrite Hf; lra).
    split; [intros _; assumption | intros _; apply domain_error_check].
  - rewrite (pareto_tensor_run _ _ _ _ _ _ _ _ _ _ _ _ Ha) by (rewrite Hf; lra).
    split.
    + intros H. exfalso. revert H.
      destruct (FillShape _ _ _) as [[[ndim nl] no]|];
        [|apply no_domain_error_shape].
      destruct (BROADCAST_NDIM_SWITCH ndim) as [NDim|];
        [|apply no_domain_error_shape].
      destruct (get NDim no); destruct (get NDim nl);
        first [apply no_domain_error_ok | apply no_domain_error_shape].
    + intros [i [Hi Hb]]. exfalso. exact (Hall i Hi Hb).
Qed.

Lemma rayleigh_tensor_domain param :
  scale param = None ->
  domain_error (rayleigh_run param ctx (i0 :: irest) req (o0 :: o1 :: orest) h) <->
  exists i, (i < TBlob_Size i0)%nat /\ h (dptr_ i0) i < 0.
Proof.
  intros Ha.
  destruct (rayleigh_checked_flag ctx o1 i0 h Hwn Hpw Hpn) as [[Hex Hf]|[Hall Hf]].
  - rewrite (rayleigh_tensor_fail _ _ _ _ _ _ _ _ _ _ _ _ Ha) by (rewrite Hf; lra).
    split; [intros _; assumption | intros _; apply domain_error_check].
  - rewrite (rayleigh_tensor_run _ _ _ _ _ _ _ _ _ _ _ _ Ha) by (rewrite Hf; lra).
    split.
    + intros H. exfalso. revert H.
      destruct (FillShape _ _ _) as [[[ndim nl] no]|];
        [|apply no_domain_error_shape].
      destruct (BROADCAST_NDIM_SWITCH ndim) as [NDim|];
        [|apply no_domain_error_shape].
      destruct (get NDim no); destruct (get NDim nl);
        first [apply no_domain_error_ok | apply no_domain_error_shape].
    + intros [i [Hi Hb]]. exfalso. exact (Hall i Hi Hb).
Qed.
End DomainCheck.

(** ** What one kernel unit leaves in its slots *)

Lemma scalar_pareto_kernel_out i av N O h :
  scalar_pareto_kernel i av N O h O i = exp (- ln (h N i) / av) - 1.
Proof. unfold scalar_pareto_kernel, load. apply store_same. Qed.

Lemma pareto_kernel_out ty i stride os P N O h :
  N <> O -> P <> N ->
  pareto_kernel ty i stride os P N O h O i =
  exp (- ln (h N i) / h P (dot (unravel i os) stride)) - 1.
Proof.
  intros Hno Hpn. unfold pareto_kernel, load. cbv zeta.
  rewrite (store_other_ptr N i _ _ O) by congruence.
  rewrite !store_same.
  now rewrite (store_other_ptr N i _ _ P) by assumption.
Qed.

Lemma pareto_kernel_noise ty i stride os P N O h :
  N <> O -> P <> N -> P <> O ->
  pareto_kernel ty i stride os P N O h N i =
  - (- ln (h N i)) * (pareto_kernel ty i stride os P N O h O i + 1)
    * (1 / type_mul ty (h P (dot (unravel i os) stride))
             (h P (dot (unravel i os) stride))).
Proof.
  intros Hno Hpn Hpo. rewrite pareto_kernel_out by assumption.
  unfold pareto_kernel, load. cbv zeta.
  rewrite !store_same.
  rewrite !(store_other_ptr O i _ _ N) by assumption.
  rewrite !store_same.
  rewrite !(store_other_ptr O i _ _ P) by assumption.
  now rewrite !(store_other_ptr N i _ _ P) by assumption.
Qed.

Lemma scalar_rayleigh_kernel_out i sv T O h :
  scalar_rayleigh_kernel i sv T O h O i = sv * sqrt (-2 * ln (h T i)).
Proof.
  unfold scalar_rayleigh_kernel, load. cbv zeta. now rewrite !store_same.
Qed.

Lemma scalar_rayleigh_kernel_threshold i sv T O h :
  T <> O -> scalar_rayleigh_kernel i sv T O h T i = sqrt (-2 * ln (h T i)).
Proof.
  intros Hto. unfold scalar_rayleigh_kernel, load. cbv zeta.
  rewrite (store_other_ptr O i _ _ T) by assumption. apply store_same.
Qed.

Lemma rayleigh_kernel_out i stride os P T O h :
  P <> T ->
  rayleigh_kernel i stride os P T O h O i =
  h P (dot (unravel i os) stride) * sqrt (-2 * ln (h T i)).
Proof.
  intros Hpt. unfold rayleigh_kernel, load. cbv zeta.
  rewrite !store_same. now rewrite (store_other_ptr T i _ _ P) by assumption.
Qed.

Lemma rayleigh_kernel_threshold i stride os P T O h :
  T <> O -> rayleigh_kernel i stride os P T O h T i = sqrt (-2 * ln (h T i)).
Proof.
  intros Hto. unfold rayleigh_kernel, load. cbv zeta.
  rewrite (store_other_ptr O i _ _ T) by assumption. apply store_same.
Qed.

(** ** The heap a successful forward call leaves *)

Section ForwardResult.
Variables (ctx : OpContext) (o0 o1 i0 : TBlob) (h : heap).
Variable i : index_t.
Hypothesis Hi0 : (i < TBlob_Size o0)%nat.
Hypothesis Hi1 : (i < TBlob_Size o1)%nat.

Local Abbreviation W := (workspace ctx).
Local Abbreviation N := (dptr_ o1).
Local Abbreviation O := (dptr_ o0).
Local Abbreviation P := (dptr_ i0).
Local Abbreviation u := (prnd ctx i).

Lemma pareto_scalar_out av :
  Launch (TBlob_Size o0) (fun k => scalar_pareto_kernel k av N O)
    (forward_prefix ctx o1 h) O i = exp (- ln u / av) - 1.
Proof.
  rewrite (Launch_slot [O] _ (elementwise_scalar_pareto av N O));
    [|now left|assumption].
  rewrite scalar_pareto_kernel_out. now rewrite forward_prefix_noise.
Qed.

Lemma pareto_scalar_noise av :
  N <> O ->
  Launch (TBlob_Size o0) (fun k => scalar_pareto_kernel k av N O)
    (forward_prefix ctx o1 h) N i = u.
Proof.
  intros Hno.
  rewrite (Launch_frame [O] _ (elementwise_scalar_pareto av N O)).
  - now apply forward_prefix_noise.
  - intros [[E|[]] _]. congruence.
Qed.

Lemma rayleigh_scalar_out sv :
  Launch (TBlob_Size o0) (fun k => scalar_rayleigh_kernel k sv N O)
    (forward_prefix ctx o1 h) O i = sv * sqrt (-2 * ln u).
Proof.
  rewrite (Launch_slot [N; O] _ (elementwise_scalar_rayleigh sv N O));
    [|right; now left|assumption].
  rewrite scalar_rayleigh_kernel_out. now rewrite forward_prefix_noise.
Qed.

Lemma rayleigh_scalar_noise sv :
  N <> O ->
  Launch (TBlob_Size o0) (fun k => scalar_rayleigh_kernel k sv N O)
    (forward_prefix ctx o1 h) N i = sqrt (-2 * ln u).
Proof.
  intros Hno.
  rewrite (Launch_slot [N; O] _ (elementwise_scalar_rayleigh sv N O));
    [|now left|assumption].
  rewrite scalar_rayleigh_kernel_threshold by assumption.
  now rewrite forward_prefix_noise.
Qed.

Hypothesis Hnw : N <> W.
Hypothesis Hpw : P <> W.
Hypothesis Hpn : P <> N.

Lemma pareto_checked_noise : pareto_checked ctx o1 i0 h N i = u.
Proof.
  rewrite pareto_checked_other by (intros [E _]; contradiction).
  now apply forward_prefix_noise.
Qed.

Lemma pareto_checked_param k : pareto_checked ctx o1 i0 h P k = h P k.
Proof.
  rewrite pareto_checked_other by (intros [E _]; contradiction).
  now apply forward_prefix_other.
Qed.

Lemma rayleigh_checked_noise : rayleigh_checked ctx o1 i0 h N i = u.
Proof.
  rewrite rayleigh_checked_other by (intros [E _]; contradiction).
  now apply forward_prefix_noise.
Qed.

Lemma rayleigh_checked_param k : rayleigh_checked ctx o1 i0 h P k = h P k.
Proof.
  rewrite rayleigh_checked_other by (intros [E _]; contradiction).
  now apply forward_prefix_other.
Qed.

Hypothesis Hno : N <> O.
Hypothesis Hpo : P <> O.

Lemma pareto_tensor_out ty stride os :
  Launch (TBlob_Size o0) (fun k => pareto_kernel ty k stride os P N O)
    (pareto_checked ctx o1 i0 h) O i =
  exp (- ln u / h P (dot (unravel i os) stride)) - 1.
Proof.
  rewrite (Launch_slot [N; O] _ (elementwise_pareto ty stride os P N O Hpn Hpo));
    [|right; now left|assumption].
  rewrite pareto_kernel_out by assumption.
  now rewrite pareto_checked_noise, pareto_checked_param.
Qed.

Lemma pareto_tensor_noise ty stride os :
  Launch (TBlob_Size o0) (fun k => pareto_kernel ty k stride os P N O)
    (pareto_checked ctx o1 i0 h) N i =
  - (- ln u) * (exp (- ln u / h P (dot (unravel i os) stride)) - 1 + 1)
    * (1 / type_mul ty (h P (dot (unravel i os) stride))
             (h P (dot (unravel i os) stride))).
Proof.
  rewrite (Launch_slot [N; O] _ (elementwise_pareto ty stride os P N O Hpn Hpo));
    [|now left|assumption].
  rewrite pareto_kernel_noise by assumption.
  rewrite pareto_kernel_out by assumption.
  now rewrite pareto_checked_noise, pareto_checked_param.
Qed.

Lemma rayleigh_tensor_out stride os :
  Launch (TBlob_Size o0) (fun k => rayleigh_kernel k stride os P N O)
    (rayleigh_checked ctx o1 i0 h) O i =
  h P (dot (unravel i os) stride) * sqrt (-2 * ln u).
Proof.
  rewrite (Launch_slot [N; O] _ (elementwise_rayleigh stride os P N O Hpn Hpo));
    [|right; now left|assumption].
  rewrite rayleigh_kernel_out by assumption.
  now rewrite rayleigh_checked_noise, rayleigh_checked_param.
Qed.

Lemma rayleigh_tensor_noise stride os :
  Launch (TBlob_Size o0) (fun k => rayleigh_kernel k stride os P N O)
    (rayleigh_checked ctx o1 i0 h) N i = sqrt (-2 * ln u).
Proof.
  rewrite (Launch_slot [N; O] _ (elementwise_rayleigh stride os P N O Hpn Hpo));
    [|now left|assumption].
  rewrite rayleigh_kernel_threshold by assumption.
  now rewrite rayleigh_checked_noise.
Qed.
End ForwardResult.

(** ** Successful tensor-path calls *)

Section TensorSuccess.
Variable FillShape : TShape -> TShape -> TShape -> option (nat * TShape * TShape).
Variable BROADCAST_NDIM_SWITCH : nat -> option nat.
Variable get : nat -> TShape -> option Shape.
Variables (ctx : OpContext) (req : list OpReqType).
Variables (i0 : TBlob) (irest : list TBlob).
Variables (o0 o1 : TBlob) (orest : list TBlob).
Variable h : heap.
Variables (ndim NDim : nat) (nl no : TShape) (os ls : Shape).

Hypothesis Hwn : workspace ctx <> dptr_ o1.
Hypothesis Hpw : dptr_ i0 <> workspace ctx.
Hypothesis Hpn : dptr_ i0 <> dptr_ o1.
Hypothesis HFill : FillShape (shape_ i0) (shape_ i0) (shape_ o0) = Some (ndim, nl, no).
Hypothesis HSwitch : BROADCAST_NDIM_SWITCH ndim = Some NDim.
Hypothesis Hos : get NDim no = Some os.
Hypothesis Hls : get NDim nl = Some ls.

Lemma pareto_tensor_ok param :
  a param = None ->
  (forall k, (k < TBlob_Size i0)%nat -> h (dptr_ i0) k > 0) ->
  NumpyParetoForward FillShape BROADCAST_NDIM_SWITCH get param ctx
    (i0 :: irest) req (o0 :: o1 :: orest) h =
  (inr tt,
   Launch (TBlob_Size o0)
     (fun k => pareto_kernel (type_flag_ i0) k (calc_stride ls) os
                 (dptr_ i0) (dptr_ o1) (dptr_ o0))
     (pareto_checked ctx o1 i0 h)).
Proof.
  intros Ha Hlegal.
  destruct (pareto_checked_flag ctx o1 i0 h Hwn Hpw Hpn) as [[[k [Hk Hb]] _]|[_ Hf]].
  - specialize (Hlegal k Hk). lra.
  - rewrite (pareto_tensor_run _ _ _ _ _ _ _ _ _ _ _ _ Ha) by (rewrite Hf; lra).
    now rewrite HFill, HSwitch, Hos, Hls.
Qed.

Lemma rayleigh_tensor_ok param :
  scale param = None ->
  (forall k, (k < TBlob_Size i0)%nat -> h (dptr_ i0) k >= 0) ->
  NumpyRayleighForward FillShape BROADCAST_NDIM_SWITCH get param ctx
    (i0 :: irest) req (o0 :: o1 :: orest) h =
  (inr tt,
   Launch (TBlob_Size o0)
     (fun k => rayleigh_kernel k (calc_stride ls) os (dptr_ i0) (dptr_ o1) (dptr_ o0))
     (rayleigh_checked ctx o1 i0 h)).
Proof.
  intros Ha Hlegal.
  destruct (rayleigh_checked_flag ctx o1 i0 h Hwn Hpw Hpn) as [[[k [Hk Hb]] _]|[_ Hf]].
  - specialize (Hlegal k Hk). lra.
  - rewrite (rayleigh_tensor_run _ _ _ _ _ _ _ _ _ _ _ _ Ha) by (rewrite Hf; lra).
    now rewrite HFill, HSwitch, Hos, Hls.
Qed.
End TensorSuccess.

(** ** Forward values *)

(** C1. Every output element of a Pareto forward call, with a parameter
    [a > 0] (the scalar of the scalar path, or the broadcast-indexed element
    of the tensor path) and the uniform draw [u] in (0,1) of that position,
    is [exp (- ln u / a) - 1]; the call returns. *)
Theorem C1_pareto_forward_output
    FillShape BROADCAST_NDIM_SWITCH get ctx req (o0 o1 : TBlob) orest h i
    (Hi0 : (i < TBlob_Size o0)%nat) (Hi1 : (i < TBlob_Size o1)%nat)
    (Hu : 0 < prnd ctx i < 1) :
  (forall param inputs av,
      a param = Some (Finite av) -> av > 0 ->
      exists h',
        NumpyParetoForward FillShape BROADCAST_NDIM_SWITCH get param ctx
          inputs req (o0 :: o1 :: orest) h = (inr tt, h') /\
        h' (dptr_ o0) i = exp (- ln (prnd ctx i) / av) - 1) /\
  (forall param i0 irest ndim nl no NDim os ls,
      a param = None ->
      dptr_ o1 <> workspace ctx -> dptr_ i0 <> workspace ctx ->
      dptr_ i0 <> dptr_ o1 -> dptr_ o1 <> dptr_ o0 -> dptr_ i0 <> dptr_ o0 ->
      (forall k, (k < TBlob_Size i0)%nat -> h (dptr_ i0) k > 0) ->
      FillShape (shape_ i0) (shape_ i0) (shape_ o0) = Some (ndim, nl, no) ->
      BROADCAST_NDIM_SWITCH ndim = Some NDim ->
      get NDim no = Some os -> get NDim nl = Some ls ->
      forall av,
        av = h (dptr_ i0) (dot (unravel i os) (calc_stride ls)) -> av > 0 ->
        exists h',
          NumpyParetoForward FillShape BROADCAST_NDIM_SWITCH get param ctx
            (i0 :: irest) req (o0 :: o1 :: orest) h = (inr tt, h') /\
          h' (dptr_ o0) i = exp (- ln (prnd ctx i) / av) - 1).
Proof.
  split.
  - intros param inputs av Ha Hpos. eexists. split.
    + apply pareto_scalar_ok; eassumption.
    + now apply pareto_scalar_out.
  - intros param i0 irest ndim nl no NDim os ls Ha Hnw Hpw Hpn Hno Hpo Hlegal
      HF HS Hos Hls av -> Hpos.
    eexists. split.
    + apply (pareto_tensor_ok FillShape BROADCAST_NDIM_SWITCH get ctx req i0 irest
               o0 o1 orest h ndim NDim nl no os ls); auto.
    + now apply pareto_tensor_out.
Qed.

Lemma C1_pareto_forward_output_witness :
  (exists h',
      NumpyParetoForward ex_FillShape ex_SWITCH ex_get
        (mkNumpyParetoParam (Some (Finite 2)) None) ex_ctx [] [] [ex_out; ex_noise] ex_heap
      = (inr tt, h') /\
      h' 1%nat 5%nat = exp (- ln (1 / 2) / 2) - 1) /\
  (exists h',
      NumpyParetoForward ex_FillShape ex_SWITCH ex_get
        (mkNumpyParetoParam None None) ex_ctx [ex_in] [] [ex_out; ex_noise] ex_heap
      = (inr tt, h') /\
      h' 1%nat 5%nat = exp (- ln (1 / 2) / 2) - 1).
Proof.
  assert (Hu : 0 < prnd ex_ctx 5%nat < 1) by (simpl; lra).
  assert (Hi : (5 < 12)%nat) by lia.
  destruct (C1_pareto_forward_output ex_FillShape ex_SWITCH ex_get ex_ctx []
              ex_out ex_noise [] ex_heap 5%nat Hi Hi Hu) as [Hs Ht].
  split.
  - apply Hs; [reflexivity | lra].
  - apply (Ht (mkNumpyParetoParam None None) ex_in [] 2%nat [3; 1]%nat [3; 4]%nat
             2%nat [3; 4]%nat [3; 1]%nat);
      try reflexivity; try (simpl; discriminate);
      try (intros; unfold ex_heap; lra); unfold ex_heap; lra.
Defined.

(** C2. Every output element of a Rayleigh forward call, with a parameter
    [scale >= 0] (the scalar of the scalar path, or the broadcast-indexed
    element of the tensor path) and the uniform draw [u] in (0,1) of that
    position, is [scale * sqrt (-2 * ln u)]; the call returns. *)
Theorem C2_rayleigh_forward_output
    FillShape BROADCAST_NDIM_SWITCH get ctx req (o0 o1 : TBlob) orest h i
    (Hi0 : (i < TBlob_Size o0)%nat) (Hi1 : (i < TBlob_Size o1)%nat)
    (Hu : 0 < prnd ctx i < 1) :
  (forall param inputs sv,
      scale param = Some (Finite sv) -> sv >= 0 ->
      exists h',
        NumpyRayleighForward FillShape BROADCAST_NDIM_SWITCH get param ctx
          inputs req (o0 :: o1 :: orest) h = (inr tt, h') /\
        h' (dptr_ o0) i = sv * sqrt (-2 * ln (prnd ctx i))) /\
  (forall param i0 irest ndim nl no NDim os ls,
      scale param = None ->
      dptr_ o1 <> workspace ctx -> dptr_ i0 <> workspace ctx ->
      dptr_ i0 <> dptr_ o1 -> dptr_ o1 <> dptr_ o0 -> dptr_ i0 <> dptr_ o0 ->
      (forall k, (k < TBlob_Size i0)%nat -> h (dptr_ i0) k >= 0) ->
      FillShape (shape_ i0) (shape_ i0) (shape_ o0) = Some (ndim, nl, no) ->
      BROADCAST_NDIM_SWITCH ndim = Some NDim ->
      get NDim no = Some os -> get NDim nl = Some ls ->
      forall sv,
        sv = h (dptr_ i0) (dot (unravel i os) (calc_stride ls)) -> sv >= 0 ->
        exists h',
          NumpyRayleighForward FillShape BROADCAST_NDIM_SWITCH get param ctx
            (i0 :: irest) req (o0 :: o1 :: orest) h = (inr tt, h') /\
          h' (dptr_ o0) i = sv * sqrt (-2 * ln (prnd ctx i))).
Proof.
  split.
  - intros param inputs sv Ha Hpos. eexists. split.
    + apply rayleigh_scalar_ok; eassumption.
    + now apply rayleigh_scalar_out.
  - intros param i0 irest ndim nl no NDim os ls Ha Hnw Hpw Hpn Hno Hpo Hlegal
      HF HS Hos Hls sv -> Hpos.
    eexists. split.
    + apply (rayleigh_tensor_ok FillShape BROADCAST_NDIM_SWITCH get ctx req i0 irest
               o0 o1 orest h ndim NDim nl no os ls); auto.
    + now apply rayleigh_tensor_out.
Qed.

Lemma C2_rayleigh_forward_output_witness :
  (exists h',
      NumpyRayleighForward ex_FillShape ex_SWITCH ex_get
        (mkNumpyRayleighParam (Some (Finite 0)) None) ex_ctx [] [] [ex_out; ex_noise] ex_heap
      = (inr tt, h') /\
      h' 1%nat 5%nat = 0 * sqrt (-2 * ln (1 / 2))) /\
  (exists h',
      NumpyRayleighForward ex_FillShape ex_SWITCH ex_get
        (mkNumpyRayleighParam None None) ex_ctx [ex_in] [] [ex_out; ex_noise] ex_heap
      = (inr tt, h') /\
      h' 1%nat 5%nat = 2 * sqrt (-2 * ln (1 / 2))).
Proof.
  assert (Hu : 0 < prnd ex_ctx 5%nat < 1) by (simpl; lra).
  assert (Hi : (5 < 12)%nat) by lia.
  destruct (C2_rayleigh_forward_output ex_FillShape ex_SWITCH ex_get ex_ctx []
              ex_out ex_noise [] ex_heap 5%nat Hi Hi Hu) as [Hs Ht].
  split.
  - apply Hs; [reflexivity | lra].
  - apply (Ht (mkNumpyRayleighParam None None) ex_in [] 2%nat [3; 1]%nat [3; 4]%nat
             2%nat [3; 4]%nat [3; 1]%nat);
      try reflexivity; try (simpl; discriminate);
      try (intros; unfold ex_heap; lra); unfold ex_heap; lra.
Defined.

(** ** The Pareto transform as a function of its parameter *)

Lemma pareto_transform_derivative (u av : R) :
  av <> 0 ->
  derivable_pt_lim (fun x => exp (- ln u / x) - 1) av
    (ln u * (exp (- ln u / av) - 1 + 1) / (av * av)).
Proof.
  intros Hav.
  assert (Hq : derivable_pt_lim (fct_cte (- ln u) / id)%F av
                 ((0 * id av - 1 * fct_cte (- ln u) av) / Rsqr (id av))).
  { apply derivable_pt_lim_div.
    - apply derivable_pt_lim_const.
    - apply derivable_pt_lim_id.
    - exact Hav. }
  assert (He : derivable_pt_lim (comp exp (fct_cte (- ln u) / id)%F) av
                 (exp ((fct_cte (- ln u) / id)%F av)
                  * ((0 * id av - 1 * fct_cte (- ln u) av) / Rsqr (id av)))).
  { apply derivable_pt_lim_comp; [exact Hq | apply derivable_pt_lim_exp]. }
  assert (Hm : derivable_pt_lim (comp exp (fct_cte (- ln u) / id)%F - fct_cte 1)%F av
                 (exp ((fct_cte (- ln u) / id)%F av)
                  * ((0 * id av - 1 * fct_cte (- ln u) av) / Rsqr (id av)) - 0)).
  { apply derivable_pt_lim_minus; [exact He | apply derivable_pt_lim_const]. }
  replace (ln u * (exp (- ln u / av) - 1 + 1) / (av * av))
    with (exp ((fct_cte (- ln u) / id)%F av)
          * ((0 * id av - 1 * fct_cte (- ln u) av) / Rsqr (id av)) - 0).
  - apply (derivable_pt_lim_ext _ _ _ _ (fun z => eq_refl) Hm).
  - unfold div_fct, fct_cte, id, Rsqr. field. exact Hav.
Qed.

(** X15. In the tensor-path Pareto kernel, for a parameter element [a <> 0]
    whose product [a * a] the parameter's element type computes exactly (a
    floating type, or an integer type without overflow), the noise slot ends
    holding [ln u * (out + 1) / a^2], and this is the derivative of
    [exp (- ln u / a) - 1] with respect to [a]. *)
Theorem X15_pareto_noise_slot_gradient_when_exact
    ty i stride os (P N O : ptr) (h : heap)
    (Hno : N <> O) (Hpn : P <> N) (Hpo : P <> O)
    (Hav : h P (dot (unravel i os) stride) <> 0)
    (Hexact : type_mul ty (h P (dot (unravel i os) stride))
                (h P (dot (unravel i os) stride))
              = h P (dot (unravel i os) stride) * h P (dot (unravel i os) stride)) :
  pareto_kernel ty i stride os P N O h N i =
    ln (h N i) * (pareto_kernel ty i stride os P N O h O i + 1)
      / (h P (dot (unravel i os) stride) * h P (dot (unravel i os) stride)) /\
  derivable_pt_lim (fun x => exp (- ln (h N i) / x) - 1)
    (h P (dot (unravel i os) stride))
    (pareto_kernel ty i stride os P N O h N i).
Proof.
  assert (Hnoise := pareto_kernel_noise ty i stride os P N O h Hno Hpn Hpo).
  assert (Hout := pareto_kernel_out ty i stride os P N O h Hno Hpn).
  rewrite Hexact in Hnoise.
  set (av := h P (dot (unravel i os) stride)) in *.
  split.
  - rewrite Hnoise. field. exact Hav.
  - replace (pareto_kernel ty i stride os P N O h N i)
      with (ln (h N i) * (exp (- ln (h N i) / av) - 1 + 1) / (av * av)).
    + now apply pareto_transform_derivative.
    + rewrite Hnoise, Hout. field. exact Hav.
Qed.

Lemma X15_pareto_noise_slot_gradient_when_exact_witness :
  ex_pareto_unit 2%nat 5%nat =
    ln (1 / 2) * (ex_pareto_unit 1%nat 5%nat + 1) / (2 * 2) /\
  derivable_pt_lim (fun x => exp (- ln (1 / 2) / x) - 1) 2
    (ex_pareto_unit 2%nat 5%nat).
Proof.
  assert (Hno : 2%nat <> 1%nat) by discriminate.
  assert (Hpn : 0%nat <> 2%nat) by discriminate.
  assert (Hpo : 0%nat <> 1%nat) by discriminate.
  assert (Hav : ex_unit_heap 0%nat (dot (unravel 5%nat [3; 4]%nat) [1; 0]%nat) <> 0)
    by (unfold ex_unit_heap, store, ex_heap; simpl; lra).
  exact (X15_pareto_noise_slot_gradient_when_exact kReal 5%nat [1; 0]%nat
           [3; 4]%nat 0%nat 2%nat 1%nat ex_unit_heap Hno Hpn Hpo Hav eq_refl).
Defined.

Lemma Int_part_IZR (z : Z) : Int_part (IZR z) = z.
Proof. symmetry. apply Int_part_spec. lra. Qed.

Lemma int32_square_46341 : type_mul (kInt 32) 46341 46341 = -2147479015.
Proof. unfold type_mul. rewrite Int_part_IZR. reflexivity. Qed.

(** C3 fails on the code for an integer parameter whose square overflows.
    For an [int32] parameter element 46341, which is positive, and the draw
    1/2, the kernel's product [a * a] wraps to -2147479015: the noise slot
    ends positive, while the derivative of [exp (- ln u / a) - 1] with
    respect to [a] is negative there, so the slot does not hold it. *)
Theorem C3_pareto_int32_noise_slot_not_gradient :
  ex_int32_heap 0%nat (dot (unravel 5%nat [3; 4]%nat) [1; 0]%nat) = 46341 /\
  ex_int32_heap 2%nat 5%nat = 1 / 2 /\
  ex_int32_unit 2%nat 5%nat > 0 /\
  (forall l,
      derivable_pt_lim (fun x => exp (- ln (1 / 2) / x) - 1) 46341 l -> l < 0) /\
  ~ derivable_pt_lim (fun x => exp (- ln (1 / 2) / x) - 1) 46341
      (ex_int32_unit 2%nat 5%nat).
Proof.
  assert (Hp : ex_int32_heap 0%nat (dot (unravel 5%nat [3; 4]%nat) [1; 0]%nat) = 46341)
    by reflexivity.
  assert (Hu : ex_int32_heap 2%nat 5%nat = 1 / 2) by reflexivity.
  assert (Hl : ln (1 / 2) < 0) by (rewrite <- ln_1; apply ln_increasing; lra).
  assert (Hslot : ex_int32_unit 2%nat 5%nat > 0).
  { unfold ex_int32_unit.
    rewrite pareto_kernel_noise, pareto_kernel_out by discriminate.
    rewrite Hp, Hu, int32_square_46341.
    assert (He := exp_pos (- ln (1 / 2) / 46341)).
    assert (Hq : 1 / -2147479015 < 0).
    { unfold Rdiv. rewrite Rmult_1_l. apply Rinv_lt_0_compat. lra. }
    assert (H1 : - - ln (1 / 2) * (exp (- ln (1 / 2) / 46341) - 1 + 1) < 0).
    { replace (- - ln (1 / 2)) with (ln (1 / 2)) by ring. nra. }
    nra. }
  assert (Hder : forall l,
             derivable_pt_lim (fun x => exp (- ln (1 / 2) / x) - 1) 46341 l -> l < 0).
  { intros l Hlim.
    assert (Hd := pareto_transform_derivative (1 / 2) 46341 ltac:(lra)).
    rewrite (uniqueness_limite _ _ _ _ Hlim Hd).
    assert (He := exp_pos (- ln (1 / 2) / 46341)).
    assert (Hsq : 0 < / (46341 * 46341)) by (apply Rinv_0_lt_compat; lra).
    unfold Rdiv at 1. 
    assert (H1 : ln (1 / 2) * (exp (- ln (1 / 2) / 46341) - 1 + 1) < 0) by nra.
    nra. }
  repeat split; try assumption.
  intros Hlim. apply Hder in Hlim. lra.
Qed.

Lemma pareto_transform_decreasing (av u1 u2 : R) :
  av > 0 -> 0 < u1 -> u1 < u2 ->
  exp (- ln u1 / av) - 1 > exp (- ln u2 / av) - 1.
Proof.
  intros Hav H1 H12.
  assert (Hln : ln u1 < ln u2) by now apply ln_increasing.
  assert (Hinv : 0 < / av) by now apply Rinv_0_lt_compat.
  assert (Harg : - ln u2 / av < - ln u1 / av).
  { unfold Rdiv. apply Rmult_lt_compat_r; [assumption | lra]. }
  apply exp_increasing in Harg. lra.
Qed.

(** C9. For a fixed Pareto parameter [a > 0] the forward transform is
    strictly decreasing in the uniform draw: for draws [u1 < u2] in (0,1),
    [exp (- ln u1 / a) - 1 > exp (- ln u2 / a) - 1], and so are the output
    values the scalar kernel writes for them. *)
Theorem C9_pareto_decreasing_in_draw
    i av (N O : ptr) (h1 h2 : heap)
    (Hav : av > 0)
    (H1 : 0 < h1 N i) (H12 : h1 N i < h2 N i) (H2 : h2 N i < 1) :
  scalar_pareto_kernel i av N O h1 O i > scalar_pareto_kernel i av N O h2 O i /\
  scalar_pareto_kernel i av N O h1 O i = exp (- ln (h1 N i) / av) - 1 /\
  scalar_pareto_kernel i av N O h2 O i = exp (- ln (h2 N i) / av) - 1.
Proof.
  rewrite !scalar_pareto_kernel_out.
  split; [|split; reflexivity].
  now apply pareto_transform_decreasing.
Qed.

Lemma C9_pareto_decreasing_in_draw_witness :
  scalar_pareto_kernel 0%nat 2 2%nat 1%nat (store 2%nat 0%nat (1 / 4) ex_heap) 1%nat 0%nat >
  scalar_pareto_kernel 0%nat 2 2%nat 1%nat (store 2%nat 0%nat (1 / 2) ex_heap) 1%nat 0%nat.
Proof.
  apply (C9_pareto_decreasing_in_draw 0%nat 2 2%nat 1%nat
           (store 2%nat 0%nat (1 / 4) ex_heap) (store 2%nat 0%nat (1 / 2) ex_heap)).
  - lra.
  - unfold store, ex_heap; simpl; lra.
  - unfold store, ex_heap; simpl; lra.
  - unfold store, ex_heap; simpl; lra.
Defined.

(** ** Domain errors *)

(** C4, as the claim states it, fails for a NaN scalar: the comparison of
    the [CHECK_*] is false for NaN, so the call stops with the domain
    error, though neither [a <= 0] nor [scale < 0] holds of NaN. *)
Lemma C4_nan_scalar_counterexample :
  (domain_error (NumpyParetoForward ex_FillShape ex_SWITCH ex_get
                   (mkNumpyParetoParam (Some NaN) None) ex_ctx
                   [] [] [ex_out; ex_noise] ex_heap) /\
   ~ float_le NaN 0) /\
  (domain_error (NumpyRayleighForward ex_FillShape ex_SWITCH ex_get
                   (mkNumpyRayleighParam (Some NaN) None) ex_ctx
                   [] [] [ex_out; ex_noise] ex_heap) /\
   ~ float_lt NaN 0).
Proof.
  split; split.
  - rewrite (pareto_scalar_nan ex_FillShape ex_SWITCH ex_get ex_ctx []
               ex_out ex_noise [] (mkNumpyParetoParam (Some NaN) None) [] ex_heap eq_refl).
    apply domain_error_check.
  - intros [].
  - rewrite (rayleigh_scalar_nan ex_FillShape ex_SWITCH ex_get ex_ctx []
               ex_out ex_noise [] (mkNumpyRayleighParam (Some NaN) None) []
               ex_heap eq_refl).
    apply domain_error_check.
  - intros [].
Qed.

(** C4, amended. A forward call stops with a domain error exactly when the
    comparison the code makes on its parameter is false.  Pareto: when the
    scalar is not [> 0], that is [a <= 0] or NaN, or when some element of
    the parameter tensor has [a <= 0].  Rayleigh: when the scalar is not
    [>= 0], that is [scale < 0] or NaN, or when some element has
    [scale < 0]; [scale = 0] is accepted.  A parameter tensor whose elements
    are all valid never gives a domain error. *)
Theorem C4_domain_error_iff
    FillShape BROADCAST_NDIM_SWITCH get ctx req
    (i0 : TBlob) irest (o0 o1 : TBlob) orest h
    (Hwn : workspace ctx <> dptr_ o1)
    (Hpw : dptr_ i0 <> workspace ctx)
    (Hpn : dptr_ i0 <> dptr_ o1) :
  (forall param inputs x,
      a param = Some x ->
      (domain_error (NumpyParetoForward FillShape BROADCAST_NDIM_SWITCH get param ctx
                       inputs req (o0 :: o1 :: orest) h) <-> ~ float_gt x 0)) /\
  (forall param inputs av,
      a param = Some (Finite av) ->
      (domain_error (NumpyParetoForward FillShape BROADCAST_NDIM_SWITCH get param ctx
                       inputs req (o0 :: o1 :: orest) h) <-> av <= 0)) /\
  (forall param inputs,
      a param = Some NaN ->
      domain_error (NumpyParetoForward FillShape BROADCAST_NDIM_SWITCH get param ctx
                      inputs req (o0 :: o1 :: orest) h)) /\
  (forall param,
      a param = None ->
      (domain_error (NumpyParetoForward FillShape BROADCAST_NDIM_SWITCH get param ctx
                       (i0 :: irest) req (o0 :: o1 :: orest) h) <->
       exists k, (k < TBlob_Size i0)%nat /\ h (dptr_ i0) k <= 0)) /\
  (forall param inputs x,
      scale param = Some x ->
      (domain_error (NumpyRayleighForward FillShape BROADCAST_NDIM_SWITCH get param ctx
                       inputs req (o0 :: o1 :: orest) h) <-> ~ float_ge x 0)) /\
  (forall param inputs sv,
      scale param = Some (Finite sv) ->
      (domain_error (NumpyRayleighForward FillShape BROADCAST_NDIM_SWITCH get param ctx
                       inputs req (o0 :: o1 :: orest) h) <-> sv < 0)) /\
  (forall param inputs,
      scale param = Some NaN ->
      domain_error (NumpyRayleighForward FillShape BROADCAST_NDIM_SWITCH get param ctx
                      inputs req (o0 :: o1 :: orest) h)) /\
  (forall param,
      scale param = None ->
      (domain_error (NumpyRayleighForward FillShape BROADCAST_NDIM_SWITCH get param ctx
                       (i0 :: irest) req (o0 :: o1 :: orest) h) <->
       exists k, (k < TBlob_Size i0)%nat /\ h (dptr_ i0) k < 0)) /\
  (forall param inputs,
      scale param = Some (Finite 0) ->
      ~ domain_error (NumpyRayleighForward FillShape BROADCAST_NDIM_SWITCH get param ctx
                        inputs req (o0 :: o1 :: orest) h)) /\
  (forall param,
      a param = None ->
      (forall k, (k < TBlob_Size i0)%nat -> h (dptr_ i0) k > 0) ->
      ~ domain_error (NumpyParetoForward FillShape BROADCAST_NDIM_SWITCH get param ctx
                        (i0 :: irest) req (o0 :: o1 :: orest) h)) /\
  (forall param,
      scale param = None ->
      (forall k, (k < TBlob_Size i0)%nat -> h (dptr_ i0) k >= 0) ->
      ~ domain_error (NumpyRayleighForward FillShape BROADCAST_NDIM_SWITCH get param ctx
                        (i0 :: irest) req (o0 :: o1 :: orest) h)).
Proof.
  split; [intros param inputs x Ha; now apply pareto_scalar_domain|].
  split.
  { intros param inputs av Ha.
    rewrite (pareto_scalar_domain FillShape BROADCAST_NDIM_SWITCH get ctx req
               o0 o1 orest h param inputs (Finite av) Ha).
    simpl. lra. }
  split.
  { intros param inputs Ha.
    apply (pareto_scalar_domain FillShape BROADCAST_NDIM_SWITCH get ctx req
             o0 o1 orest h param inputs NaN Ha).
    intros []. }
  split; [intros param Ha; now apply pareto_tensor_domain|].
  split; [intros param inputs x Ha; now apply rayleigh_scalar_domain|].
  split.
  { intros param inputs sv Ha.
    rewrite (rayleigh_scalar_domain FillShape BROADCAST_NDIM_SWITCH get ctx req
               o0 o1 orest h param inputs (Finite sv) Ha).
    simpl. lra. }
  split.
  { intros param inputs Ha.
    apply (rayleigh_scalar_domain FillShape BROADCAST_NDIM_SWITCH get ctx req
             o0 o1 orest h param inputs NaN Ha).
    intros []. }
  split; [intros param Ha; now apply rayleigh_tensor_domain|].
  split; [|split].
  - intros param inputs Ha Herr.
    apply (rayleigh_scalar_domain FillShape BROADCAST_NDIM_SWITCH get ctx req
             o0 o1 orest h param inputs (Finite 0) Ha) in Herr.
    apply Herr. simpl. lra.
  - intros param Ha Hlegal Herr.
    apply (pareto_tensor_domain FillShape BROADCAST_NDIM_SWITCH get ctx req
             i0 irest o0 o1 orest h Hwn Hpw Hpn param) in Herr; [|assumption].
    destruct Herr as [k [Hk Hb]]. specialize (Hlegal k Hk). lra.
  - intros param Ha Hlegal Herr.
    apply (rayleigh_tensor_domain FillShape BROADCAST_NDIM_SWITCH get ctx req
             i0 irest o0 o1 orest h Hwn Hpw Hpn param) in Herr; [|assumption].
    destruct Herr as [k [Hk Hb]]. specialize (Hlegal k Hk). lra.
Qed.

Lemma C4_domain_error_iff_witness :
  domain_error (NumpyParetoForward ex_FillShape ex_SWITCH ex_get
                  (mkNumpyParetoParam None None) ex_ctx
                  [ex_in] [] [ex_out; ex_noise] ex_heap_zero) /\
  ~ domain_error (NumpyRayleighForward ex_FillShape ex_SWITCH ex_get
                    (mkNumpyRayleighParam None None) ex_ctx
                    [ex_in] [] [ex_out; ex_noise] ex_heap_zero) /\
  domain_error (NumpyParetoForward ex_FillShape ex_SWITCH ex_get
                  (mkNumpyParetoParam (Some (Finite 0)) None) ex_ctx
                  [] [] [ex_out; ex_noise] ex_heap_zero) /\
  ~ domain_error (NumpyRayleighForward ex_FillShape ex_SWITCH ex_get
                    (mkNumpyRayleighParam (Some (Finite 0)) None) ex_ctx
                    [] [] [ex_out; ex_noise] ex_heap_zero) /\
  domain_error (NumpyParetoForward ex_FillShape ex_SWITCH ex_get
                  (mkNumpyParetoParam (Some NaN) None) ex_ctx
                  [] [] [ex_out; ex_noise] ex_heap_zero).
Proof.
  assert (Hwn : workspace ex_ctx <> dptr_ ex_noise) by (simpl; discriminate).
  assert (Hpw : dptr_ ex_in <> workspace ex_ctx) by (simpl; discriminate).
  assert (Hpn : dptr_ ex_in <> dptr_ ex_noise) by (simpl; discriminate).
  destruct (C4_domain_error_iff ex_FillShape ex_SWITCH ex_get ex_ctx []
              ex_in [] ex_out ex_noise [] ex_heap_zero Hwn Hpw Hpn)
    as [_ [Hps [Hpnan [Hpt [_ [_ [_ [_ [Hr0 [_ Hrt]]]]]]]]]].
  split; [|split; [|split; [|split]]].
  - apply (Hpt (mkNumpyParetoParam None None) eq_refl).
    exists 1%nat. split; [unfold TBlob_Size, ex_in; simpl; lia
                        | unfold ex_heap_zero, store, ex_in; simpl; lra].
  - apply (Hrt (mkNumpyRayleighParam None None) eq_refl).
    intros k _. unfold ex_heap_zero, store, ex_heap, ex_in. simpl.
    destruct (Nat.eqb k 1); lra.
  - apply (Hps (mkNumpyParetoParam (Some (Finite 0)) None) [] 0 eq_refl). lra.
  - apply (Hr0 (mkNumpyRayleighParam (Some (Finite 0)) None) [] eq_refl).
  - apply (Hpnan (mkNumpyParetoParam (Some NaN) None) [] eq_refl).
Defined.

(** ** The output buffer of a failed call *)

Section FailureFrame.
Variable FillShape : TShape -> TShape -> TShape -> option (nat * TShape * TShape).
Variable BROADCAST_NDIM_SWITCH : nat -> option nat.
Variable get : nat -> TShape -> option Shape.
Variables (ctx : OpContext) (req : list OpReqType) (inputs : list TBlob).
Variables (o0 o1 : TBlob) (orest : list TBlob).
Variable h : heap.
Hypothesis Hon : dptr_ o0 <> dptr_ o1.
Hypothesis How : dptr_ o0 <> workspace ctx.

Lemma pareto_checked_out i0 j :
  pareto_checked ctx o1 i0 h (dptr_ o0) j = h (dptr_ o0) j.
Proof.
  rewrite pareto_checked_other by (intros [E _]; contradiction).
  now apply forward_prefix_other.
Qed.

Lemma rayleigh_checked_out i0 j :
  rayleigh_checked ctx o1 i0 h (dptr_ o0) j = h (dptr_ o0) j.
Proof.
  rewrite rayleigh_checked_other by (intros [E _]; contradiction).
  now apply forward_prefix_other.
Qed.

Lemma pareto_failure_frame param e :
  fst (NumpyParetoForward FillShape BROADCAST_NDIM_SWITCH get param ctx
         inputs req (o0 :: o1 :: orest) h) = inl e ->
  forall j,
    snd (NumpyParetoForward FillShape BROADCAST_NDIM_SWITCH get param ctx
           inputs req (o0 :: o1 :: orest) h) (dptr_ o0) j = h (dptr_ o0) j.
Proof.
  destruct (a param) as [[av|]|] eqn:Ha.
  - destruct (Rgt_dec av 0) as [Hpos|Hneg].
    + rewrite (pareto_scalar_ok _ _ _ _ _ _ _ _ _ _ _ _ Ha Hpos). discriminate.
    + rewrite (pareto_scalar_fail _ _ _ _ _ _ _ _ _ _ _ _ Ha Hneg).
      intros _ j. simpl. now apply forward_prefix_other.
  - rewrite (pareto_scalar_nan _ _ _ _ _ _ _ _ _ _ _ Ha).
    intros _ j. simpl. now apply forward_prefix_other.
  - destruct inputs as [|i0 irest].
    + run_forward. rewrite Ha. intros _ j. simpl.
      fold (forward_prefix ctx o1 h). now apply forward_prefix_other.
    + destruct (Rge_dec (pareto_checked ctx o1 i0 h (workspace ctx) 0%nat) 0)
        as [Hpos|Hneg].
      * rewrite (pareto_tensor_run _ _ _ _ _ _ _ _ _ _ _ _ Ha Hpos).
        destruct (FillShape _ _ _) as [[[ndim nl] no]|];
          [|intros _ j; apply pareto_checked_out].
        destruct (BROADCAST_NDIM_SWITCH ndim) as [NDim|];
          [|intros _ j; apply pareto_checked_out].
        destruct (get NDim no); destruct (get NDim nl);
          first [discriminate | intros _ j; apply pareto_checked_out].
      * rewrite (pareto_tensor_fail _ _ _ _ _ _ _ _ _ _ _ _ Ha Hneg).
        intros _ j. apply pareto_checked_out.
Qed.

Lemma rayleigh_failure_frame param e :
  fst (NumpyRayleighForward FillShape BROADCAST_NDIM_SWITCH get param ctx
         inputs req (o0 :: o1 :: orest) h) = inl e ->
  forall j,
    snd (NumpyRayleighForward FillShape BROADCAST_NDIM_SWITCH get param ctx
           inputs req (o0 :: o1 :: orest) h) (dptr_ o0) j = h (dptr_ o0) j.
Proof.
  destruct (scale param) as [[sv|]|] eqn:Ha.
  - destruct (Rge_dec sv 0) as [Hpos|Hneg].
    + rewrite (rayleigh_scalar_ok _ _ _ _ _ _ _ _ _ _ _ _ Ha Hpos). discriminate.
    + rewrite (rayleigh_scalar_fail _ _ _ _ _ _ _ _ _ _ _ _ Ha Hneg).
      intros _ j. simpl. now apply forward_prefix_other.
  - rewrite (rayleigh_scalar_nan _ _ _ _ _ _ _ _ _ _ _ Ha).
    intros _ j. simpl. now apply forward_prefix_other.
  - destruct inputs as [|i0 irest].
    + run_forward. rewrite Ha. intros _ j. simpl.
      fold (forward_prefix ctx o1 h). now apply forward_prefix_other.
    + destruct (Rge_dec (rayleigh_checked ctx o1 i0 h (workspace ctx) 0%nat) 0)
        as [Hpos|Hneg].
      * rewrite (rayleigh_tensor_run _ _ _ _ _ _ _ _ _ _ _ _ Ha Hpos).
        destruct (FillShape _ _ _) as [[[ndim nl] no]|];
          [|intros _ j; apply rayleigh_checked_out].
        destruct (BROADCAST_NDIM_SWITCH ndim) as [NDim|];
          [|intros _ j; apply rayleigh_checked_out].
        destruct (get NDim no); destruct (get NDim nl);
          first [discriminate | intros _ j; apply rayleigh_checked_out].
      * rewrite (rayleigh_tensor_fail _ _ _ _ _ _ _ _ _ _ _ _ Ha Hneg).
        intros _ j. apply rayleigh_checked_out.
Qed.
End FailureFrame.

(** C7. A forward call of either distribution that fails the domain check,
    on the scalar or on the tensor path, leaves the output buffer as it
    was: every slot of the output buffer holds its value from before the
    call. *)
Theorem C7_domain_failure_keeps_output
    FillShape BROADCAST_NDIM_SWITCH get ctx req inputs (o0 o1 : TBlob) orest h
    (Hon : dptr_ o0 <> dptr_ o1) (How : dptr_ o0 <> workspace ctx) :
  (forall param,
      domain_error (NumpyParetoForward FillShape BROADCAST_NDIM_SWITCH get param ctx
                      inputs req (o0 :: o1 :: orest) h) ->
      forall j,
        snd (NumpyParetoForward FillShape BROADCAST_NDIM_SWITCH get param ctx
               inputs req (o0 :: o1 :: orest) h) (dptr_ o0) j = h (dptr_ o0) j) /\
  (forall param,
      domain_error (NumpyRayleighForward FillShape BROADCAST_NDIM_SWITCH get param ctx
                      inputs req (o0 :: o1 :: orest) h) ->
      forall j,
        snd (NumpyRayleighForward FillShape BROADCAST_NDIM_SWITCH get param ctx
               inputs req (o0 :: o1 :: orest) h) (dptr_ o0) j = h (dptr_ o0) j).
Proof.
  split; intros param [msg Herr].
  - now apply (pareto_failure_frame _ _ _ _ _ _ _ _ _ _ Hon How param _ Herr).
  - now apply (rayleigh_failure_frame _ _ _ _ _ _ _ _ _ _ Hon How param _ Herr).
Qed.

Lemma C7_domain_failure_keeps_output_witness :
  snd (NumpyParetoForward ex_FillShape ex_SWITCH ex_get
         (mkNumpyParetoParam None None) ex_ctx
         [ex_in] [] [ex_out; ex_noise] ex_heap_zero) 1%nat 5%nat = 2 /\
  snd (NumpyRayleighForward ex_FillShape ex_SWITCH ex_get
         (mkNumpyRayleighParam (Some (Finite (-1))) None) ex_ctx
         [ex_in] [] [ex_out; ex_noise] ex_heap_zero) 1%nat 5%nat = 2.
Proof.
  assert (Hon : dptr_ ex_out <> dptr_ ex_noise) by (simpl; discriminate).
  assert (How : dptr_ ex_out <> workspace ex_ctx) by (simpl; discriminate).
  destruct (C7_domain_failure_keeps_output ex_FillShape ex_SWITCH ex_get ex_ctx []
              [ex_in] ex_out ex_noise [] ex_heap_zero Hon How) as [Hp Hr].
  split.
  - apply (Hp (mkNumpyParetoParam None None)).
    apply pareto_tensor_domain; try (simpl; discriminate); try reflexivity.
    exists 1%nat. split; [unfold TBlob_Size, ex_in; simpl; lia
                        | unfold ex_heap_zero, store, ex_in; simpl; lra].
  - apply (Hr (mkNumpyRayleighParam (Some (Finite (-1))) None)).
    apply (rayleigh_scalar_domain ex_FillShape ex_SWITCH ex_get ex_ctx []
             ex_out ex_noise [] ex_heap_zero
             (mkNumpyRayleighParam (Some (Finite (-1))) None) [ex_in]
             (Finite (-1)) eq_refl).
    simpl. lra.
Defined.

(** ** The noise buffer of a call that fails on the tensor path *)

Section TensorFailure.
Variable FillShape : TShape -> TShape -> TShape -> option (nat * TShape * TShape).
Variable BROADCAST_NDIM_SWITCH : nat -> option nat.
Variable get : nat -> TShape -> option Shape.
Variables (ctx : OpContext) (req : list OpReqType).
Variables (i0 : TBlob) (irest : list TBlob).
Variables (o0 o1 : TBlob) (orest : list TBlob).
Variable h : heap.

Lemma pareto_tensor_domain_heap param :
  a param = None ->
  domain_error (NumpyParetoForward FillShape BROADCAST_NDIM_SWITCH get param ctx
                  (i0 :: irest) req (o0 :: o1 :: orest) h) ->
  snd (NumpyParetoForward FillShape BROADCAST_NDIM_SWITCH get param ctx
         (i0 :: irest) req (o0 :: o1 :: orest) h) = pareto_checked ctx o1 i0 h.
Proof.
  intros Ha.
  destruct (Rge_dec (pareto_checked ctx o1 i0 h (workspace ctx) 0%nat) 0)
    as [Hpos|Hneg].
  - rewrite (pareto_tensor_run _ _ _ _ _ _ _ _ _ _ _ _ Ha Hpos).
    destruct (FillShape _ _ _) as [[[ndim nl] no]|]; [|reflexivity].
    destruct (BROADCAST_NDIM_SWITCH ndim) as [NDim|]; [|reflexivity].
    destruct (get NDim no); destruct (get NDim nl); try reflexivity.
    intros H. now apply no_domain_error_ok in H.
  - now rewrite (pareto_tensor_fail _ _ _ _ _ _ _ _ _ _ _ _ Ha Hneg).
Qed.

Lemma rayleigh_tensor_domain_heap param :
  scale param = None ->
  domain_error (NumpyRayleighForward FillShape BROADCAST_NDIM_SWITCH get param ctx
                  (i0 :: irest) req (o0 :: o1 :: orest) h) ->
  snd (NumpyRayleighForward FillShape BROADCAST_NDIM_SWITCH get param ctx
         (i0 :: irest) req (o0 :: o1 :: orest) h) = rayleigh_checked ctx o1 i0 h.
Proof.
  intros Ha.
  destruct (Rge_dec (rayleigh_checked ctx o1 i0 h (workspace ctx) 0%nat) 0)
    as [Hpos|Hneg].
  - rewrite (rayleigh_tensor_run _ _ _ _ _ _ _ _ _ _ _ _ Ha Hpos).
    destruct (FillShape _ _ _) as [[[ndim nl] no]|]; [|reflexivity].
    destruct (BROADCAST_NDIM_SWITCH ndim) as [NDim|]; [|reflexivity].
    destruct (get NDim no); destruct (get NDim nl); try reflexivity.
    intros H. now apply no_domain_error_ok in H.
  - now rewrite (rayleigh_tensor_fail _ _ _ _ _ _ _ _ _ _ _ _ Ha Hneg).
Qed.
End TensorFailure.

(** C10. On the tensor path of both distributions the noise buffer is filled
    with the fresh uniform draws before the legality check is evaluated: a
    call that fails the domain check leaves the draws in the noise buffer,
    and leaves only the output buffer as it was. *)
Theorem C10_tensor_failure_noise_already_drawn
    FillShape BROADCAST_NDIM_SWITCH get ctx req
    (i0 : TBlob) irest (o0 o1 : TBlob) orest h
    (Hnw : dptr_ o1 <> workspace ctx)
    (Hon : dptr_ o0 <> dptr_ o1) (How : dptr_ o0 <> workspace ctx) :
  (forall param,
      a param = None ->
      domain_error (NumpyParetoForward FillShape BROADCAST_NDIM_SWITCH get param ctx
                      (i0 :: irest) req (o0 :: o1 :: orest) h) ->
      (forall j, (j < TBlob_Size o1)%nat ->
         snd (NumpyParetoForward FillShape BROADCAST_NDIM_SWITCH get param ctx
                (i0 :: irest) req (o0 :: o1 :: orest) h) (dptr_ o1) j = prnd ctx j) /\
      (forall j,
         snd (NumpyParetoForward FillShape BROADCAST_NDIM_SWITCH get param ctx
                (i0 :: irest) req (o0 :: o1 :: orest) h) (dptr_ o0) j
         = h (dptr_ o0) j)) /\
  (forall param,
      scale param = None ->
      domain_error (NumpyRayleighForward FillShape BROADCAST_NDIM_SWITCH get param ctx
                      (i0 :: irest) req (o0 :: o1 :: orest) h) ->
      (forall j, (j < TBlob_Size o1)%nat ->
         snd (NumpyRayleighForward FillShape BROADCAST_NDIM_SWITCH get param ctx
                (i0 :: irest) req (o0 :: o1 :: orest) h) (dptr_ o1) j = prnd ctx j) /\
      (forall j,
         snd (NumpyRayleighForward FillShape BROADCAST_NDIM_SWITCH get param ctx
                (i0 :: irest) req (o0 :: o1 :: orest) h) (dptr_ o0) j
         = h (dptr_ o0) j)).
Proof.
  split; intros param Ha Herr.
  - rewrite (pareto_tensor_domain_heap _ _ _ _ _ _ _ _ _ _ _ _ Ha Herr). split.
    + intros j Hj.
      rewrite pareto_checked_other by (intros [E _]; contradiction).
      now apply forward_prefix_noise.
    + intros j. now apply pareto_checked_out.
  - rewrite (rayleigh_tensor_domain_heap _ _ _ _ _ _ _ _ _ _ _ _ Ha Herr). split.
    + intros j Hj.
      rewrite rayleigh_checked_other by (intros [E _]; contradiction).
      now apply forward_prefix_noise.
    + intros j. now apply rayleigh_checked_out.
Qed.

Lemma C10_tensor_failure_noise_already_drawn_witness :
  (snd (NumpyParetoForward ex_FillShape ex_SWITCH ex_get
          (mkNumpyParetoParam None None) ex_ctx
          [ex_in] [] [ex_out; ex_noise] ex_heap_neg) 2%nat 5%nat = 1 / 2 /\
   snd (NumpyParetoForward ex_FillShape ex_SWITCH ex_get
          (mkNumpyParetoParam None None) ex_ctx
          [ex_in] [] [ex_out; ex_noise] ex_heap_neg) 1%nat 5%nat = 2) /\
  (snd (NumpyRayleighForward ex_FillShape ex_SWITCH ex_get
          (mkNumpyRayleighParam None None) ex_ctx
          [ex_in] [] [ex_out; ex_noise] ex_heap_neg) 2%nat 5%nat = 1 / 2 /\
   snd (NumpyRayleighForward ex_FillShape ex_SWITCH ex_get
          (mkNumpyRayleighParam None None) ex_ctx
          [ex_in] [] [ex_out; ex_noise] ex_heap_neg) 1%nat 5%nat = 2).
Proof.
  assert (Hnw : dptr_ ex_noise <> workspace ex_ctx) by (simpl; discriminate).
  assert (Hon : dptr_ ex_out <> dptr_ ex_noise) by (simpl; discriminate).
  assert (How : dptr_ ex_out <> workspace ex_ctx) by (simpl; discriminate).
  assert (Hbad : exists k, (k < TBlob_Size ex_in)%nat /\ ex_heap_neg (dptr_ ex_in) k < 0).
  { exists 1%nat. split; [unfold TBlob_Size, ex_in; simpl; lia
                          | unfold ex_heap_neg, store, ex_in; simpl; lra]. }
  destruct (C10_tensor_failure_noise_already_drawn ex_FillShape ex_SWITCH ex_get
              ex_ctx [] ex_in [] ex_out ex_noise [] ex_heap_neg Hnw Hon How)
    as [Hp Hr].
  split.
  - destruct (Hp (mkNumpyParetoParam None None) eq_refl) as [Hn Ho].
    + apply pareto_tensor_domain; try (simpl; discriminate); try reflexivity.
      destruct Hbad as [k [Hk Hb]]. exists k. split; [assumption | lra].
    + split; [apply (Hn 5%nat); unfold TBlob_Size, ex_noise; simpl; lia | apply Ho].
  - destruct (Hr (mkNumpyRayleighParam None None) eq_refl) as [Hn Ho].
    + apply rayleigh_tensor_domain; try (simpl; discriminate); try reflexivity.
      exact Hbad.
    + split; [apply (Hn 5%nat); unfold TBlob_Size, ex_noise; simpl; lia | apply Ho].
Defined.

(** ** What a successful call leaves in the noise buffer *)

Lemma ln_half_neg : ln (1 / 2) < 0.
Proof.
  rewrite <- ln_1. apply ln_increasing; lra.
Qed.

(** C6, as the claim states it, fails on the scalar path of Pareto: the call
    with the scalar [a = 2] and the draw 1/2 succeeds and leaves the draw
    itself in slot 5 of the noise buffer, not the gradient factor
    [- noise * (out + 1) / a^2]. *)
Lemma C6_pareto_scalar_noise_counterexample :
  exists h',
    NumpyParetoForward ex_FillShape ex_SWITCH ex_get
      (mkNumpyParetoParam (Some (Finite 2)) None) ex_ctx [] [] [ex_out; ex_noise] ex_heap
    = (inr tt, h') /\
    h' 2%nat 5%nat = 1 / 2 /\
    h' 2%nat 5%nat <> - (- ln (1 / 2)) * (h' 1%nat 5%nat + 1) * (1 / (2 * 2)).
Proof.
  eexists. split; [|split].
  - apply pareto_scalar_ok; [reflexivity | lra].
  - apply (pareto_scalar_noise ex_ctx ex_out ex_noise ex_heap 5%nat).
    + unfold TBlob_Size, ex_noise; simpl; lia.
    + simpl; discriminate.
  - rewrite (pareto_scalar_noise ex_ctx ex_out ex_noise ex_heap 5%nat);
      [|unfold TBlob_Size, ex_noise; simpl; lia | simpl; discriminate].
    rewrite (pareto_scalar_out ex_ctx ex_out ex_noise ex_heap 5%nat);
      [|unfold TBlob_Size, ex_out; simpl; lia
       |unfold TBlob_Size, ex_noise; simpl; lia].
    simpl prnd.
    assert (Hl := ln_half_neg).
    assert (He := exp_pos (- ln (1 / 2) / 2)).
    intros Heq.
    assert (Hneg : - (- ln (1 / 2)) * (exp (- ln (1 / 2) / 2) - 1 + 1) * (1 / (2 * 2)) < 0)
      by nra.
    lra.
Qed.

(** C6, amended. Every successful forward call writes every slot of the
    output buffer and of the noise buffer.  The noise buffer is left
    holding: for Rayleigh, on both paths, [sqrt (-2 * ln u)]; for Pareto on
    the tensor path, when the parameter's element type computes the product
    [a * a] exactly, the gradient factor [- noise * (out + 1) / a^2] with
    [noise = - ln u]; for Pareto on the scalar path, the draw [u] itself.
    What the slot holds after an integer product that overflows is not
    part of the statement. *)
Theorem C6_forward_overwrites_output_and_noise
    FillShape BROADCAST_NDIM_SWITCH get ctx req (o0 o1 : TBlob) orest h i
    (Hi0 : (i < TBlob_Size o0)%nat) (Hi1 : (i < TBlob_Size o1)%nat)
    (Hu : 0 < prnd ctx i < 1)
    (Hno : dptr_ o1 <> dptr_ o0) :
  (forall param inputs av,
      a param = Some (Finite av) -> av > 0 ->
      exists h',
        NumpyParetoForward FillShape BROADCAST_NDIM_SWITCH get param ctx
          inputs req (o0 :: o1 :: orest) h = (inr tt, h') /\
        h' (dptr_ o0) i = exp (- ln (prnd ctx i) / av) - 1 /\
        h' (dptr_ o1) i = prnd ctx i) /\
  (forall param i0 irest ndim nl no NDim os ls,
      a param = None ->
      dptr_ o1 <> workspace ctx -> dptr_ i0 <> workspace ctx ->
      dptr_ i0 <> dptr_ o1 -> dptr_ i0 <> dptr_ o0 ->
      (forall k, (k < TBlob_Size i0)%nat -> h (dptr_ i0) k > 0) ->
      FillShape (shape_ i0) (shape_ i0) (shape_ o0) = Some (ndim, nl, no) ->
      BROADCAST_NDIM_SWITCH ndim = Some NDim ->
      get NDim no = Some os -> get NDim nl = Some ls ->
      forall av,
        av = h (dptr_ i0) (dot (unravel i os) (calc_stride ls)) -> av > 0 ->
        type_mul (type_flag_ i0) av av = av * av ->
        exists h',
          NumpyParetoForward FillShape BROADCAST_NDIM_SWITCH get param ctx
            (i0 :: irest) req (o0 :: o1 :: orest) h = (inr tt, h') /\
          h' (dptr_ o0) i = exp (- ln (prnd ctx i) / av) - 1 /\
          h' (dptr_ o1) i =
            - (- ln (prnd ctx i)) * (h' (dptr_ o0) i + 1) * (1 / (av * av))) /\
  (forall param inputs sv,
      scale param = Some (Finite sv) -> sv >= 0 ->
      exists h',
        NumpyRayleighForward FillShape BROADCAST_NDIM_SWITCH get param ctx
          inputs req (o0 :: o1 :: orest) h = (inr tt, h') /\
        h' (dptr_ o0) i = sv * sqrt (-2 * ln (prnd ctx i)) /\
        h' (dptr_ o1) i = sqrt (-2 * ln (prnd ctx i))) /\
  (forall param i0 irest ndim nl no NDim os ls,
      scale param = None ->
      dptr_ o1 <> workspace ctx -> dptr_ i0 <> workspace ctx ->
      dptr_ i0 <> dptr_ o1 -> dptr_ i0 <> dptr_ o0 ->
      (forall k, (k < TBlob_Size i0)%nat -> h (dptr_ i0) k >= 0) ->
      FillShape (shape_ i0) (shape_ i0) (shape_ o0) = Some (ndim, nl, no) ->
      BROADCAST_NDIM_SWITCH ndim = Some NDim ->
      get NDim no = Some os -> get NDim nl = Some ls ->
      forall sv,
        sv = h (dptr_ i0) (dot (unravel i os) (calc_stride ls)) -> sv >= 0 ->
        exists h',
          NumpyRayleighForward FillShape BROADCAST_NDIM_SWITCH get param ctx
            (i0 :: irest) req (o0 :: o1 :: orest) h = (inr tt, h') /\
          h' (dptr_ o0) i = sv * sqrt (-2 * ln (prnd ctx i)) /\
          h' (dptr_ o1) i = sqrt (-2 * ln (prnd ctx i))).
Proof.
  split; [|split; [|split]].
  - intros param inputs av Ha Hpos. eexists. split; [|split].
    + apply pareto_scalar_ok; eassumption.
    + now apply pareto_scalar_out.
    + now apply pareto_scalar_noise.
  - intros param i0 irest ndim nl no NDim os ls Ha Hnw Hpw Hpn Hpo Hlegal
      HF HS Hos Hls av -> Hpos Hexact.
    eexists. split; [|split].
    + apply (pareto_tensor_ok FillShape BROADCAST_NDIM_SWITCH get ctx req i0 irest
               o0 o1 orest h ndim NDim nl no os ls); auto.
    + now apply pareto_tensor_out.
    + rewrite pareto_tensor_noise by assumption.
      rewrite Hexact. now rewrite pareto_tensor_out by assumption.
  - intros param inputs sv Ha Hpos. eexists. split; [|split].
    + apply rayleigh_scalar_ok; eassumption.
    + now apply rayleigh_scalar_out.
    + now apply rayleigh_scalar_noise.
  - intros param i0 irest ndim nl no NDim os ls Ha Hnw Hpw Hpn Hpo Hlegal
      HF HS Hos Hls sv -> Hpos.
    eexists. split; [|split].
    + apply (rayleigh_tensor_ok FillShape BROADCAST_NDIM_SWITCH get ctx req i0 irest
               o0 o1 orest h ndim NDim nl no os ls); auto.
    + now apply rayleigh_tensor_out.
    + now apply rayleigh_tensor_noise.
Qed.

Lemma C6_forward_overwrites_output_and_noise_witness :
  (exists h',
      NumpyParetoForward ex_FillShape ex_SWITCH ex_get
        (mkNumpyParetoParam (Some (Finite 2)) None) ex_ctx [] [] [ex_out; ex_noise] ex_heap
      = (inr tt, h') /\
      h' 1%nat 5%nat = exp (- ln (1 / 2) / 2) - 1 /\
      h' 2%nat 5%nat = 1 / 2) /\
  (exists h',
      NumpyParetoForward ex_FillShape ex_SWITCH ex_get
        (mkNumpyParetoParam None None) ex_ctx [ex_in] [] [ex_out; ex_noise] ex_heap
      = (inr tt, h') /\
      h' 1%nat 5%nat = exp (- ln (1 / 2) / 2) - 1 /\
      h' 2%nat 5%nat = - (- ln (1 / 2)) * (h' 1%nat 5%nat + 1) * (1 / (2 * 2))) /\
  (exists h',
      NumpyRayleighForward ex_FillShape ex_SWITCH ex_get
        (mkNumpyRayleighParam (Some (Finite 3)) None) ex_ctx [] [] [ex_out; ex_noise] ex_heap
      = (inr tt, h') /\
      h' 1%nat 5%nat = 3 * sqrt (-2 * ln (1 / 2)) /\
      h' 2%nat 5%nat = sqrt (-2 * ln (1 / 2))) /\
  (exists h',
      NumpyRayleighForward ex_FillShape ex_SWITCH ex_get
        (mkNumpyRayleighParam None None) ex_ctx [ex_in] [] [ex_out; ex_noise] ex_heap
      = (inr tt, h') /\
      h' 1%nat 5%nat = 2 * sqrt (-2 * ln (1 / 2)) /\
      h' 2%nat 5%nat = sqrt (-2 * ln (1 / 2))).
Proof.
  assert (Hu : 0 < prnd ex_ctx 5%nat < 1) by (simpl; lra).
  assert (Hi : (5 < 12)%nat) by lia.
  assert (Hno : dptr_ ex_noise <> dptr_ ex_out) by (simpl; discriminate).
  destruct (C6_forward_overwrites_output_and_noise ex_FillShape ex_SWITCH ex_get
              ex_ctx [] ex_out ex_noise [] ex_heap 5%nat Hi Hi Hu Hno)
    as [Hps [Hpt [Hrs Hrt]]].
  split; [|split; [|split]].
  - apply Hps; [reflexivity | lra].
  - apply (Hpt (mkNumpyParetoParam None None) ex_in [] 2%nat [3; 1]%nat [3; 4]%nat
             2%nat [3; 4]%nat [3; 1]%nat);
      try reflexivity; try (simpl; discriminate);
      try (intros; unfold ex_heap; lra); unfold ex_heap; lra.
  - apply Hrs; [reflexivity | lra].
  - apply (Hrt (mkNumpyRayleighParam None None) ex_in [] 2%nat [3; 1]%nat [3; 4]%nat
             2%nat [3; 4]%nat [3; 1]%nat);
      try reflexivity; try (simpl; discriminate);
      try (intros; unfold ex_heap; lra); unfold ex_heap; lra.
Defined.

(** ** Broadcast indexing *)

Local Open Scope nat_scope.

Lemma unravel_3_4 (r c : nat) :
  (r < 3) -> (c < 4) -> unravel (r * 4 + c) [3; 4] = [r; c].
Proof.
  intros Hr Hc.
  destruct r as [|[|[|r]]]; [| | |lia];
    (destruct c as [|[|[|[|c]]]]; [| | | |lia]); reflexivity.
Qed.

(** C5. On the tensor path of both distributions the parameter element
    used for the output linear index [i] is the one at the dot product of
    the coordinate of [i] in the output shape with the parameter's stride
    vector.  For a parameter of shape (3,1) broadcast against the output
    shape (3,4), the output element at (r,c) uses the parameter element at
    (r,0), for every c. *)
Theorem C5_broadcast_parameter_index
    (ty : ElemType) (P T O : ptr) (h : heap) (r c : nat)
    (Hpt : P <> T) (Hto : T <> O) (Hr : (r < 3)) (Hc : (c < 4)) :
  (forall i stride oshape,
      pareto_kernel ty i stride oshape P T O h O i =
        (exp (- ln (h T i) / h P (dot (unravel i oshape) stride)) - 1)%R /\
      rayleigh_kernel i stride oshape P T O h O i =
        (h P (dot (unravel i oshape) stride) * sqrt (-2 * ln (h T i)))%R) /\
  unravel (ravel [r; c] [3; 4]) [3; 4] = [r; c] /\
  dot (unravel (ravel [r; c] [3; 4]) [3; 4]) (calc_stride [3; 1])
    = ravel [r; 0] [3; 1] /\
  pareto_kernel ty (ravel [r; c] [3; 4]) (calc_stride [3; 1]) [3; 4] P T O h
      O (ravel [r; c] [3; 4]) =
    (exp (- ln (h T (ravel [r; c] [3; 4])%nat) / h P (ravel [r; 0] [3; 1])%nat) - 1)%R /\
  rayleigh_kernel (ravel [r; c] [3; 4]) (calc_stride [3; 1]) [3; 4] P T O h
      O (ravel [r; c] [3; 4]) =
    (h P (ravel [r; 0] [3; 1])%nat * sqrt (-2 * ln (h T (ravel [r; c] [3; 4])%nat)))%R.
Proof.
  assert (Hrav : ravel [r; c] [3; 4] = (r * 4 + c)) by (simpl; lia).
  assert (Hun : unravel (ravel [r; c] [3; 4]) [3; 4] = [r; c])
    by (rewrite Hrav; now apply unravel_3_4).
  assert (Hdot : dot (unravel (ravel [r; c] [3; 4]) [3; 4]) (calc_stride [3; 1])
                 = ravel [r; 0] [3; 1])
    by (rewrite Hun; simpl; lia).
  split; [|split; [|split; [|split]]].
  - intros i stride oshape. split.
    + apply pareto_kernel_out; congruence.
    + now apply rayleigh_kernel_out.
  - exact Hun.
  - exact Hdot.
  - rewrite pareto_kernel_out by congruence. now rewrite Hdot.
  - rewrite rayleigh_kernel_out by assumption. now rewrite Hdot.
Qed.

Lemma C5_broadcast_parameter_index_witness :
  dot (unravel (ravel [2; 3] [3; 4]) [3; 4]) (calc_stride [3; 1])
    = ravel [2; 0] [3; 1] /\
  pareto_kernel kReal (ravel [2; 3] [3; 4]) (calc_stride [3; 1]) [3; 4]
      0 2 1 ex_heap 1 (ravel [2; 3] [3; 4]) =
    (exp (- ln (ex_heap 2%nat (ravel [2; 3] [3; 4])%nat) / ex_heap 0%nat (ravel [2; 0] [3; 1])%nat) - 1)%R.
Proof.
  assert (Hpt : 0 <> 2) by discriminate.
  assert (Hto : 2 <> 1) by discriminate.
  assert (Hr : (2 < 3)) by lia.
  assert (Hc : (3 < 4)) by lia.
  destruct (C5_broadcast_parameter_index kReal 0 2 1 ex_heap 2 3
              Hpt Hto Hr Hc) as [_ [_ [Hd [Hp _]]]].
  split; [exact Hd | exact Hp].
Defined.

Local Open Scope R_scope.

(** ** Backward *)

(** C8. For both distributions the backward operation writes no buffer
    when the incoming gradient tensor has zero elements, or when there is no
    gradient output (the scalar-parameter case), or when the input arity is
    not 5; with a non-empty gradient, an output and exactly 5 inputs it is
    the shared broadcast-backward reduction, whatever that reduction is. *)
Theorem C8_backward_noop_or_delegate
    FillShape BROADCAST_NDIM_SWITCH Impl ctx
    (inputs : list TBlob) reqs (outputs : list TBlob) (i0 : TBlob) irest h
    (Hin : inputs = i0 :: irest) :
  (Size (shape_ i0) = 0%nat ->
     ParetoReparamBackward FillShape BROADCAST_NDIM_SWITCH Impl ctx
       inputs reqs outputs h = (inr tt, h) /\
     RayleighReparamBackward FillShape BROADCAST_NDIM_SWITCH Impl ctx
       inputs reqs outputs h = (inr tt, h)) /\
  (outputs = [] ->
     ParetoReparamBackward FillShape BROADCAST_NDIM_SWITCH Impl ctx
       inputs reqs outputs h = (inr tt, h) /\
     RayleighReparamBackward FillShape BROADCAST_NDIM_SWITCH Impl ctx
       inputs reqs outputs h = (inr tt, h)) /\
  (List.length inputs <> 5%nat ->
     ParetoReparamBackward FillShape BROADCAST_NDIM_SWITCH Impl ctx
       inputs reqs outputs h = (inr tt, h) /\
     RayleighReparamBackward FillShape BROADCAST_NDIM_SWITCH Impl ctx
       inputs reqs outputs h = (inr tt, h)) /\
  (forall o0 orest ndim new_ishape new_oshape NDim,
     Size (shape_ i0) <> 0%nat -> outputs = o0 :: orest ->
     List.length inputs = 5%nat ->
     FillShape (shape_ o0) (shape_ o0) (shape_ i0) = Some (ndim, new_ishape, new_oshape) ->
     BROADCAST_NDIM_SWITCH ndim = Some NDim ->
     ParetoReparamBackward FillShape BROADCAST_NDIM_SWITCH Impl ctx
       inputs reqs outputs h
       = Impl NDim ctx inputs reqs outputs new_ishape new_oshape h /\
     RayleighReparamBackward FillShape BROADCAST_NDIM_SWITCH Impl ctx
       inputs reqs outputs h
       = Impl NDim ctx inputs reqs outputs new_ishape new_oshape h).
Proof.
  subst inputs.
  split; [|split; [|split]].
  - intros Hz. run_forward. rewrite Hz. simpl. split; reflexivity.
  - intros ->. run_forward. simpl.
    destruct (Size (shape_ i0) =? 0)%nat; split; reflexivity.
  - intros Hlen. run_forward.
    destruct (Size (shape_ i0) =? 0)%nat; [split; reflexivity|].
    destruct (List.length outputs =? 0)%nat; [split; reflexivity|].
    destruct (Nat.eqb_spec (List.length (i0 :: irest)) 5) as [E|_];
      [contradiction | split; reflexivity].
  - intros o0 orest ndim new_ishape new_oshape NDim Hnz -> Hlen HF HS.
    run_forward.
    destruct (Nat.eqb_spec (Size (shape_ i0)) 0) as [E|_]; [contradiction|].
    change (List.length (o0 :: orest) =? 0)%nat with false.
    rewrite Hlen. change (5 =? 5)%nat with true. cbv iota.
    rewrite HF. cbv beta iota. rewrite HS.
    split; reflexivity.
Qed.

Lemma C8_backward_noop_or_delegate_witness :
  ParetoReparamBackward ex_FillShape ex_SWITCH ex_Impl ex_ctx
    [ex_empty; ex_noise; ex_noise; ex_noise; ex_noise] [] [ex_in] ex_heap
    = (inr tt, ex_heap) /\
  RayleighReparamBackward ex_FillShape ex_SWITCH ex_Impl ex_ctx
    [ex_out; ex_noise; ex_noise; ex_noise; ex_noise] [] [] ex_heap
    = (inr tt, ex_heap) /\
  ParetoReparamBackward ex_FillShape ex_SWITCH ex_Impl ex_ctx
    [ex_out; ex_noise; ex_noise] [] [ex_in] ex_heap
    = (inr tt, ex_heap) /\
  ParetoReparamBackward ex_FillShape ex_SWITCH ex_Impl ex_ctx
    [ex_out; ex_noise; ex_noise; ex_noise; ex_noise] [] [ex_in] ex_heap
    = (inr tt, store 9%nat 0%nat 7 ex_heap).
Proof.
  split; [|split; [|split]].
  - destruct (C8_backward_noop_or_delegate ex_FillShape ex_SWITCH ex_Impl ex_ctx
                [ex_empty; ex_noise; ex_noise; ex_noise; ex_noise] [] [ex_in]
                ex_empty [ex_noise; ex_noise; ex_noise; ex_noise] ex_heap eq_refl)
      as [Hzero _].
    apply Hzero. reflexivity.
  - destruct (C8_backward_noop_or_delegate ex_FillShape ex_SWITCH ex_Impl ex_ctx
                [ex_out; ex_noise; ex_noise; ex_noise; ex_noise] [] []
                ex_out [ex_noise; ex_noise; ex_noise; ex_noise] ex_heap eq_refl)
      as [_ [Hscalar _]].
    apply Hscalar. reflexivity.
  - destruct (C8_backward_noop_or_delegate ex_FillShape ex_SWITCH ex_Impl ex_ctx
                [ex_out; ex_noise; ex_noise] [] [ex_in]
                ex_out [ex_noise; ex_noise] ex_heap eq_refl)
      as [_ [_ [Harity _]]].
    apply Harity. simpl. discriminate.
  - destruct (C8_backward_noop_or_delegate ex_FillShape ex_SWITCH ex_Impl ex_ctx
                [ex_out; ex_noise; ex_noise; ex_noise; ex_noise] [] [ex_in]
                ex_out [ex_noise; ex_noise; ex_noise; ex_noise] ex_heap eq_refl)
      as [_ [_ [_ Htensor]]].
    apply (Htensor ex_in [] 2%nat [3; 1]%nat [3; 4]%nat 2%nat);
      try reflexivity. simpl. discriminate.
Defined.

(** * Further properties of the operators *)

(** ** What a forward call never writes *)

Lemma Launch_frame_only ws K :
  (forall i h q j, ~ (In q ws /\ j = i) -> K i h q j = h q j) ->
  forall N h q j, ~ (In q ws /\ (j < N)%nat) -> Launch N K h q j = h q j.
Proof.
  intros Hframe N. induction N as [|N IH]; intros h q j Hout.
  - reflexivity.
  - rewrite Launch_S, Hframe.
    + apply IH. intros [Hin Hlt]. apply Hout. split; [assumption | lia].
    + intros [Hin ->]. apply Hout. split; [assumption | lia].
Qed.

Lemma two_buffers_frame (K : index_t -> heap -> heap) (N O : ptr) :
  (forall i h q j, ~ (q = N /\ j = i) -> ~ (q = O /\ j = i) -> K i h q j = h q j) ->
  forall i h q j, ~ (In q [N; O] /\ j = i) -> K i h q j = h q j.
Proof.
  intros HK i h q j Hout. apply HK.
  - intros [-> ->]. apply Hout. split; [now left | reflexivity].
  - intros [-> ->]. apply Hout. split; [right; now left | reflexivity].
Qed.

Lemma pareto_kernel_frame ty stride os P N O i h q j :
  ~ (q = N /\ j = i) -> ~ (q = O /\ j = i) ->
  pareto_kernel ty i stride os P N O h q j = h q j.
Proof.
  intros Hn Ho. unfold pareto_kernel. cbv zeta. now rewrite !store_other.
Qed.

Lemma rayleigh_kernel_frame stride os P N O i h q j :
  ~ (q = N /\ j = i) -> ~ (q = O /\ j = i) ->
  rayleigh_kernel i stride os P N O h q j = h q j.
Proof.
  intros Hn Ho. unfold rayleigh_kernel. cbv zeta. now rewrite !store_other.
Qed.

Lemma scalar_rayleigh_kernel_frame sv N O i h q j :
  ~ (q = N /\ j = i) -> ~ (q = O /\ j = i) ->
  scalar_rayleigh_kernel i sv N O h q j = h q j.
Proof.
  intros Hn Ho. unfold scalar_rayleigh_kernel. cbv zeta. now rewrite !store_other.
Qed.

Lemma scalar_pareto_kernel_frame av N O i h q j :
  ~ (q = O /\ j = i) -> scalar_pareto_kernel i av N O h q j = h q j.
Proof. intros Ho. unfold scalar_pareto_kernel. now rewrite store_other. Qed.

Lemma forward_prefix_frame ctx o1 h q j :
  ~ (q = dptr_ o1 /\ (j < TBlob_Size o1)%nat) ->
  ~ (q = workspace ctx /\ j = 0%nat) ->
  forward_prefix ctx o1 h q j = h q j.
Proof.
  intros Hn Hw. unfold forward_prefix, SampleUniform. simpl.
  rewrite (Launch_frame [dptr_ o1] _ (elementwise_fill _ _)).
  - rewrite Launch_S, Launch_0. unfold set_zero. now apply store_other.
  - intros [[E|[]] Hlt]. apply Hn. now split.
Qed.

Section ForwardFrame.
Variable FillShape : TShape -> TShape -> TShape -> option (nat * TShape * TShape).
Variable BROADCAST_NDIM_SWITCH : nat -> option nat.
Variable get : nat -> TShape -> option Shape.
Variables (ctx : OpContext) (req : list OpReqType) (inputs : list TBlob).
Variables (o0 o1 : TBlob) (orest : list TBlob).
Variable h : heap.

Lemma pareto_outside_transform param q j :
  ~ (q = dptr_ o0 /\ (j < TBlob_Size o0)%nat) ->
  ~ (q = dptr_ o1 /\ (j < TBlob_Size o0)%nat) ->
  snd (NumpyParetoForward FillShape BROADCAST_NDIM_SWITCH get param ctx
         inputs req (o0 :: o1 :: orest) h) q j
  = pareto_before_transform ctx inputs o1 h param q j.
Proof.
  intros Ho Hn. unfold pareto_before_transform.
  destruct (a param) as [[av|]|] eqn:Ha.
  - destruct (Rgt_dec av 0) as [Hpos|Hneg].
    + rewrite (pareto_scalar_ok _ _ _ _ _ _ _ _ _ _ _ _ Ha Hpos). simpl.
      apply (Launch_frame_only [dptr_ o0]).
      * intros i h0 q0 j0 Hout. apply scalar_pareto_kernel_frame.
        intros [-> ->]. apply Hout. split; [now left | reflexivity].
      * intros [[E|[]] Hlt]. apply Ho. now split.
    + now rewrite (pareto_scalar_fail _ _ _ _ _ _ _ _ _ _ _ _ Ha Hneg).
  - now rewrite (pareto_scalar_nan _ _ _ _ _ _ _ _ _ _ _ Ha).
  - destruct inputs as [|i0 irest].
    + run_forward. rewrite Ha. reflexivity.
    + destruct (Rge_dec (pareto_checked ctx o1 i0 h (workspace ctx) 0%nat) 0)
        as [Hpos|Hneg].
      * rewrite (pareto_tensor_run _ _ _ _ _ _ _ _ _ _ _ _ Ha Hpos).
        destruct (FillShape _ _ _) as [[[ndim nl] no]|]; [|reflexivity].
        destruct (BROADCAST_NDIM_SWITCH ndim) as [NDim|]; [|reflexivity].
        destruct (get NDim no); destruct (get NDim nl); try reflexivity.
        simpl. apply (Launch_frame_only [dptr_ o1; dptr_ o0]).
        -- apply two_buffers_frame. intros. now apply pareto_kernel_frame.
        -- intros [[E|[E|[]]] Hlt]; [apply Hn | apply Ho]; now split.
      * now rewrite (pareto_tensor_fail _ _ _ _ _ _ _ _ _ _ _ _ Ha Hneg).
Qed.

Lemma rayleigh_outside_transform param q j :
  ~ (q = dptr_ o0 /\ (j < TBlob_Size o0)%nat) ->
  ~ (q = dptr_ o1 /\ (j < TBlob_Size o0)%nat) ->
  snd (NumpyRayleighForward FillShape BROADCAST_NDIM_SWITCH get param ctx
         inputs req (o0 :: o1 :: orest) h) q j
  = rayleigh_before_transform ctx inputs o1 h param q j.
Proof.
  intros Ho Hn. unfold rayleigh_before_transform.
  destruct (scale param) as [[sv|]|] eqn:Ha.
  - destruct (Rge_dec sv 0) as [Hpos|Hneg].
    + rewrite (rayleigh_scalar_ok _ _ _ _ _ _ _ _ _ _ _ _ Ha Hpos). simpl.
      apply (Launch_frame_only [dptr_ o1; dptr_ o0]).
      * apply two_buffers_frame. intros. now apply scalar_rayleigh_kernel_frame.
      * intros [[E|[E|[]]] Hlt]; [apply Hn | apply Ho]; now split.
    + now rewrite (rayleigh_scalar_fail _ _ _ _ _ _ _ _ _ _ _ _ Ha Hneg).
  - now rewrite (rayleigh_scalar_nan _ _ _ _ _ _ _ _ _ _ _ Ha).
  - destruct inputs as [|i0 irest].
    + run_forward. rewrite Ha. reflexivity.
    + destruct (Rge_dec (rayleigh_checked ctx o1 i0 h (workspace ctx) 0%nat) 0)
        as [Hpos|Hneg].
      * rewrite (rayleigh_tensor_run _ _ _ _ _ _ _ _ _ _ _ _ Ha Hpos).
        destruct (FillShape _ _ _) as [[[ndim nl] no]|]; [|reflexivity].
        destruct (BROADCAST_NDIM_SWITCH ndim) as [NDim|]; [|reflexivity].
        destruct (get NDim no); destruct (get NDim nl); try reflexivity.
        simpl. apply (Launch_frame_only [dptr_ o1; dptr_ o0]).
        -- apply two_buffers_frame. intros. now apply rayleigh_kernel_frame.
        -- intros [[E|[E|[]]] Hlt]; [apply Hn | apply Ho]; now split.
      * now rewrite (rayleigh_tensor_fail _ _ _ _ _ _ _ _ _ _ _ _ Ha Hneg).
Qed.

Lemma pareto_before_transform_frame param q j :
  ~ (q = dptr_ o1 /\ (j < TBlob_Size o1)%nat) ->
  ~ (q = workspace ctx /\ j = 0%nat) ->
  pareto_before_transform ctx inputs o1 h param q j = h q j.
Proof.
  intros Hn Hw. unfold pareto_before_transform.
  destruct (a param); destruct inputs;
    try now apply forward_prefix_frame.
  rewrite pareto_checked_other by assumption. now apply forward_prefix_frame.
Qed.

Lemma rayleigh_before_transform_frame param q j :
  ~ (q = dptr_ o1 /\ (j < TBlob_Size o1)%nat) ->
  ~ (q = workspace ctx /\ j = 0%nat) ->
  rayleigh_before_transform ctx inputs o1 h param q j = h q j.
Proof.
  intros Hn Hw. unfold rayleigh_before_transform.
  destruct (scale param); destruct inputs;
    try now apply forward_prefix_frame.
  rewrite rayleigh_checked_other by assumption. now apply forward_prefix_frame.
Qed.
End ForwardFrame.

(** X1. A forward call of either distribution, whatever its outcome, writes
    only inside its footprint: the output buffer below its size, the noise
    buffer below the larger of the two sizes, and slot 0 of the workspace.
    Every other slot of the memory, the parameter tensor included, holds
    after the call what it held before. *)
Theorem X1_forward_writes_only_footprint
    FillShape BROADCAST_NDIM_SWITCH get ctx req inputs (o0 o1 : TBlob) orest h q j
    (Hout : ~ forward_footprint ctx o0 o1 q j) :
  (forall param,
      snd (NumpyParetoForward FillShape BROADCAST_NDIM_SWITCH get param ctx
             inputs req (o0 :: o1 :: orest) h) q j = h q j) /\
  (forall param,
      snd (NumpyRayleighForward FillShape BROADCAST_NDIM_SWITCH get param ctx
             inputs req (o0 :: o1 :: orest) h) q j = h q j).
Proof.
  unfold forward_footprint in Hout.
  assert (Ho : ~ (q = dptr_ o0 /\ (j < TBlob_Size o0)%nat)) by tauto.
  assert (Hn0 : ~ (q = dptr_ o1 /\ (j < TBlob_Size o0)%nat)) by tauto.
  assert (Hn1 : ~ (q = dptr_ o1 /\ (j < TBlob_Size o1)%nat)) by tauto.
  assert (Hw : ~ (q = workspace ctx /\ j = 0%nat)) by tauto.
  split; intros param.
  - rewrite pareto_outside_transform by assumption.
    now apply pareto_before_transform_frame.
  - rewrite rayleigh_outside_transform by assumption.
    now apply rayleigh_before_transform_frame.
Qed.

Lemma X1_forward_writes_only_footprint_witness :
  (snd (NumpyParetoForward ex_FillShape ex_SWITCH ex_get
          (mkNumpyParetoParam None None) ex_ctx
          [ex_in] [] [ex_out; ex_noise] ex_heap) 0%nat 1%nat = 2 /\
   snd (NumpyParetoForward ex_FillShape ex_SWITCH ex_get
          (mkNumpyParetoParam None None) ex_ctx
          [ex_in] [] [ex_out; ex_noise] ex_heap) 1%nat 12%nat = 2) /\
  snd (NumpyRayleighForward ex_FillShape ex_SWITCH ex_get
         (mkNumpyRayleighParam (Some (Finite 3)) None) ex_ctx
         [ex_in] [] [ex_out; ex_noise] ex_heap) 2%nat 12%nat = 2.
Proof.
  assert (Hp : ~ forward_footprint ex_ctx ex_out ex_noise 0%nat 1%nat).
  { unfold forward_footprint. simpl. intros [[E _]|[[E _]|[E _]]]; discriminate. }
  assert (Hend : forall q, ~ forward_footprint ex_ctx ex_out ex_noise q 12%nat).
  { intros q. unfold forward_footprint, TBlob_Size. simpl.
    intros [[_ E]|[[_ [E|E]]|[_ E]]]; lia. }
  split; [split|].
  - apply (X1_forward_writes_only_footprint ex_FillShape ex_SWITCH ex_get ex_ctx []
             [ex_in] ex_out ex_noise [] ex_heap 0%nat 1%nat Hp).
  - apply (X1_forward_writes_only_footprint ex_FillShape ex_SWITCH ex_get ex_ctx []
             [ex_in] ex_out ex_noise [] ex_heap 1%nat 12%nat (Hend 1%nat)).
  - apply (X1_forward_writes_only_footprint ex_FillShape ex_SWITCH ex_get ex_ctx []
             [ex_in] ex_out ex_noise [] ex_heap 2%nat 12%nat (Hend 2%nat)).
Defined.

(** ** The legality flag after a call *)

(** X2. The workspace flag after a forward call, with the workspace distinct
    from the output, noise and parameter buffers: 0 after every
    scalar-path call, a NaN scalar included; on the tensor path -1 exactly when the call stopped
    with a domain error and 0 exactly when it did not. *)
Theorem X2_flag_after_forward
    FillShape BROADCAST_NDIM_SWITCH get ctx req
    (i0 : TBlob) irest (o0 o1 : TBlob) orest h
    (Hwo : workspace ctx <> dptr_ o0)
    (Hwn : workspace ctx <> dptr_ o1)
    (Hpw : dptr_ i0 <> workspace ctx)
    (Hpn : dptr_ i0 <> dptr_ o1) :
  (forall param inputs x,
      a param = Some x ->
      snd (NumpyParetoForward FillShape BROADCAST_NDIM_SWITCH get param ctx
             inputs req (o0 :: o1 :: orest) h) (workspace ctx) 0%nat = 0) /\
  (forall param,
      a param = None ->
      (domain_error (NumpyParetoForward FillShape BROADCAST_NDIM_SWITCH get param ctx
                       (i0 :: irest) req (o0 :: o1 :: orest) h) <->
       snd (NumpyParetoForward FillShape BROADCAST_NDIM_SWITCH get param ctx
              (i0 :: irest) req (o0 :: o1 :: orest) h) (workspace ctx) 0%nat = -1) /\
      (~ domain_error (NumpyParetoForward FillShape BROADCAST_NDIM_SWITCH get param
                         ctx (i0 :: irest) req (o0 :: o1 :: orest) h) <->
       snd (NumpyParetoForward FillShape BROADCAST_NDIM_SWITCH get param ctx
              (i0 :: irest) req (o0 :: o1 :: orest) h) (workspace ctx) 0%nat = 0)) /\
  (forall param inputs x,
      scale param = Some x ->
      snd (NumpyRayleighForward FillShape BROADCAST_NDIM_SWITCH get param ctx
             inputs req (o0 :: o1 :: orest) h) (workspace ctx) 0%nat = 0) /\
  (forall param,
      scale param = None ->
      (domain_error (NumpyRayleighForward FillShape BROADCAST_NDIM_SWITCH get param ctx
                       (i0 :: irest) req (o0 :: o1 :: orest) h) <->
       snd (NumpyRayleighForward FillShape BROADCAST_NDIM_SWITCH get param ctx
              (i0 :: irest) req (o0 :: o1 :: orest) h) (workspace ctx) 0%nat = -1) /\
      (~ domain_error (NumpyRayleighForward FillShape BROADCAST_NDIM_SWITCH get param
                         ctx (i0 :: irest) req (o0 :: o1 :: orest) h) <->
       snd (NumpyRayleighForward FillShape BROADCAST_NDIM_SWITCH get param ctx
              (i0 :: irest) req (o0 :: o1 :: orest) h) (workspace ctx) 0%nat = 0)).
Proof.
  assert (Ho : forall j, ~ (workspace ctx = dptr_ o0 /\ (j < TBlob_Size o0)%nat))
    by (intros j [E _]; contradiction).
  assert (Hn : forall j, ~ (workspace ctx = dptr_ o1 /\ (j < TBlob_Size o0)%nat))
    by (intros j [E _]; contradiction).
  split; [|split; [|split]].
  - intros param inputs av Ha. rewrite pareto_outside_transform by auto.
    unfold pareto_before_transform. rewrite Ha.
    destruct inputs; now apply forward_prefix_flag.
  - intros param Ha. rewrite pareto_outside_transform by auto.
    unfold pareto_before_transform. rewrite Ha.
    rewrite (pareto_tensor_domain FillShape BROADCAST_NDIM_SWITCH get ctx req
               i0 irest o0 o1 orest h Hwn Hpw Hpn param Ha).
    destruct (pareto_checked_flag ctx o1 i0 h Hwn Hpw Hpn) as [[Hex Hf]|[Hall Hf]];
      rewrite Hf; split.
    + split; [reflexivity | intros _; assumption].
    + split; [intros Hno; exfalso; exact (Hno Hex) | lra].
    + split; [intros [k [Hk Hb]]; exfalso; exact (Hall k Hk Hb) | lra].
    + split; [reflexivity | intros _ [k [Hk Hb]]; exact (Hall k Hk Hb)].
  - intros param inputs sv Ha. rewrite rayleigh_outside_transform by auto.
    unfold rayleigh_before_transform. rewrite Ha.
    destruct inputs; now apply forward_prefix_flag.
  - intros param Ha. rewrite rayleigh_outside_transform by auto.
    unfold rayleigh_before_transform. rewrite Ha.
    rewrite (rayleigh_tensor_domain FillShape BROADCAST_NDIM_SWITCH get ctx req
               i0 irest o0 o1 orest h Hwn Hpw Hpn param Ha).
    destruct (rayleigh_checked_flag ctx o1 i0 h Hwn Hpw Hpn) as [[Hex Hf]|[Hall Hf]];
      rewrite Hf; split.
    + split; [reflexivity | intros _; assumption].
    + split; [intros Hno; exfalso; exact (Hno Hex) | lra].
    + split; [intros [k [Hk Hb]]; exfalso; exact (Hall k Hk Hb) | lra].
    + split; [reflexivity | intros _ [k [Hk Hb]]; exact (Hall k Hk Hb)].
Qed.

Lemma X2_flag_after_forward_witness :
  snd (NumpyParetoForward ex_FillShape ex_SWITCH ex_get
         (mkNumpyParetoParam None None) ex_ctx
         [ex_in] [] [ex_out; ex_noise] ex_heap_zero) 3%nat 0%nat = -1 /\
  snd (NumpyRayleighForward ex_FillShape ex_SWITCH ex_get
         (mkNumpyRayleighParam None None) ex_ctx
         [ex_in] [] [ex_out; ex_noise] ex_heap_zero) 3%nat 0%nat = 0 /\
  snd (NumpyRayleighForward ex_FillShape ex_SWITCH ex_get
         (mkNumpyRayleighParam (Some (Finite 3)) None) ex_ctx
         [] [] [ex_out; ex_noise] ex_heap_zero) 3%nat 0%nat = 0.
Proof.
  assert (Hwo : workspace ex_ctx <> dptr_ ex_out) by (simpl; discriminate).
  assert (Hwn : workspace ex_ctx <> dptr_ ex_noise) by (simpl; discriminate).
  assert (Hpw : dptr_ ex_in <> workspace ex_ctx) by (simpl; discriminate).
  assert (Hpn : dptr_ ex_in <> dptr_ ex_noise) by (simpl; discriminate).
  destruct (X2_flag_after_forward ex_FillShape ex_SWITCH ex_get ex_ctx []
              ex_in [] ex_out ex_noise [] ex_heap_zero Hwo Hwn Hpw Hpn)
    as [_ [Hpt [Hrs Hrt]]].
  split; [|split].
  - apply (Hpt (mkNumpyParetoParam None None) eq_refl).
    apply pareto_tensor_domain; try assumption; try reflexivity.
    exists 1%nat. split; [unfold TBlob_Size, ex_in; simpl; lia
                        | unfold ex_heap_zero, store, ex_in; simpl; lra].
  - apply (Hrt (mkNumpyRayleighParam None None) eq_refl).
    intros Herr.
    apply (rayleigh_tensor_domain ex_FillShape ex_SWITCH ex_get ex_ctx []
             ex_in [] ex_out ex_noise [] ex_heap_zero Hwn Hpw Hpn
             (mkNumpyRayleighParam None None) eq_refl) in Herr.
    destruct Herr as [k [_ Hb]]. revert Hb.
    unfold ex_heap_zero, store, ex_heap, ex_in. simpl.
    destruct (Nat.eqb k 1); lra.
  - apply (Hrs (mkNumpyRayleighParam (Some (Finite 3)) None) [] (Finite 3) eq_refl).
Defined.

(** ** Launches under other schedules *)

(** X3. Each of the four transform kernels leaves the same heap under every
    schedule that runs each unit [0 .. N-1] exactly once as under the
    increasing order; the tensor kernels need the parameter buffer distinct
    from the noise and output buffers. *)
Theorem X3_transform_launch_any_order
    (order : list index_t) (N : nat) ty stride os (P T O : ptr) (v : R) (h : heap) q j
    (Hnd : NoDup order)
    (Hcover : forall k, In k order <-> (k < N)%nat)
    (Hpt : P <> T) (Hpo : P <> O) :
  Launch_order order (fun i => scalar_pareto_kernel i v T O) h q j
    = Launch N (fun i => scalar_pareto_kernel i v T O) h q j /\
  Launch_order order (fun i => pareto_kernel ty i stride os P T O) h q j
    = Launch N (fun i => pareto_kernel ty i stride os P T O) h q j /\
  Launch_order order (fun i => scalar_rayleigh_kernel i v T O) h q j
    = Launch N (fun i => scalar_rayleigh_kernel i v T O) h q j /\
  Launch_order order (fun i => rayleigh_kernel i stride os P T O) h q j
    = Launch N (fun i => rayleigh_kernel i stride os P T O) h q j.
Proof.
  split; [|split; [|split]].
  - now apply (Launch_any_order [O] _ (elementwise_scalar_pareto v T O)).
  - now apply (Launch_any_order [T; O] _ (elementwise_pareto ty stride os P T O Hpt Hpo)).
  - now apply (Launch_any_order [T; O] _ (elementwise_scalar_rayleigh v T O)).
  - now apply (Launch_any_order [T; O] _ (elementwise_rayleigh stride os P T O Hpt Hpo)).
Qed.

Lemma X3_transform_launch_any_order_witness :
  Launch_order [2; 0; 1]%nat
    (fun i => pareto_kernel kReal i [1; 0]%nat [3; 4]%nat 0%nat 2%nat 1%nat)
    ex_unit_heap 2%nat 1%nat
  = Launch 3 (fun i => pareto_kernel kReal i [1; 0]%nat [3; 4]%nat 0%nat 2%nat 1%nat)
      ex_unit_heap 2%nat 1%nat.
Proof.
  assert (Hnd : NoDup [2; 0; 1]%nat)
    by (repeat (constructor; [simpl; lia|]); constructor).
  assert (Hcover : forall k, In k [2; 0; 1]%nat <-> (k < 3)%nat)
    by (intros k; simpl; lia).
  assert (Hpt : 0%nat <> 2%nat) by discriminate.
  assert (Hpo : 0%nat <> 1%nat) by discriminate.
  destruct (X3_transform_launch_any_order [2; 0; 1]%nat 3 kReal [1; 0]%nat [3; 4]%nat
              0%nat 2%nat 1%nat 0 ex_unit_heap 2%nat 1%nat Hnd Hcover Hpt Hpo)
    as [_ [H _]].
  exact H.
Defined.

Section LegalityCheckOrder.
Variable bad : R -> Prop.
Variable bad_dec : forall x, {bad x} + {~ bad x}.
Variables (params flag : ptr).
Hypothesis Hdistinct : params <> flag.

Local Abbreviation check := (fun i => check_kernel bad bad_dec i params flag).

Lemma check_order_frame order h q j :
  ~ (q = flag /\ j = 0%nat) -> Launch_order order check h q j = h q j.
Proof.
  revert h. induction order as [|i rest IH]; intros h Hne.
  - reflexivity.
  - unfold Launch_order. simpl. fold (Launch_order rest check (check i h)).
    rewrite IH by assumption. unfold check_kernel.
    destruct (bad_dec _); [now apply store_other | reflexivity].
Qed.

Lemma check_order_flag order h :
  ((exists i, In i order /\ bad (h params i)) /\
     Launch_order order check h flag 0%nat = -1) \/
  ((forall i, In i order -> ~ bad (h params i)) /\
     Launch_order order check h flag 0%nat = h flag 0%nat).
Proof.
  revert h. induction order as [|i rest IH]; intros h.
  - right. split; [intros i [] | reflexivity].
  - unfold Launch_order. simpl. fold (Launch_order rest check (check i h)).
    unfold check_kernel at 2 4. unfold load.
    destruct (bad_dec (h params i)) as [Hb|Hb].
    + left. split; [exists i; split; [now left | assumption]|].
      destruct (IH (store flag 0%nat (-1) h)) as [[_ Hf]|[_ Hf]];
        rewrite Hf; [reflexivity | apply store_same].
    + destruct (IH h) as [[[k [Hk Hbad]] Hf]|[Hall Hf]].
      * left. split; [exists k; split; [now right | assumption] | assumption].
      * right. split; [|assumption].
        intros k [<-|Hk]; [assumption | now apply Hall].
Qed.

Lemma check_any_order order N h q j :
  (forall k, In k order <-> (k < N)%nat) ->
  Launch_order order check h q j = Launch N check h q j.
Proof.
  intros Hcover.
  destruct (Nat.eq_dec q flag) as [->|Hq]; [destruct (Nat.eq_dec j 0) as [->|Hj]|].
  - destruct (check_order_flag order h) as [[[k [Hk Hb]] Hf]|[Hall Hf]];
      destruct (check_flag bad bad_dec params flag Hdistinct N h)
        as [[[k' [Hk' Hb']] Hf']|[Hall' Hf']]; rewrite Hf, Hf'; try reflexivity.
    + exfalso. apply (Hall' k); [now apply Hcover | assumption].
    + exfalso. apply (Hall k'); [now apply Hcover | assumption].
  - rewrite check_order_frame by (intros [_ E]; contradiction).
    symmetry. apply check_frame. intros [_ E]; contradiction.
  - rewrite check_order_frame by (intros [E _]; contradiction).
    symmetry. apply check_frame. intros [E _]; contradiction.
Qed.

Lemma check_twice N h q j :
  Launch N check (Launch N check h) q j = Launch N check h q j.
Proof.
  destruct (Nat.eq_dec q flag) as [->|Hq]; [destruct (Nat.eq_dec j 0) as [->|Hj]|].
  - destruct (check_flag bad bad_dec params flag Hdistinct N (Launch N check h))
      as [[[k [Hk Hb]] Hf]|[_ Hf]]; [|exact Hf].
    rewrite Hf.
    rewrite (check_frame bad bad_dec params flag N h params k) in Hb
      by (intros [E _]; contradiction).
    destruct (check_flag bad bad_dec params flag Hdistinct N h)
      as [[_ Hf']|[Hall _]]; [now rewrite Hf'|].
    exfalso. exact (Hall k Hk Hb).
  - rewrite !(check_frame bad bad_dec params flag) by (intros [_ E]; contradiction).
    reflexivity.
  - rewrite !(check_frame bad bad_dec params flag) by (intros [E _]; contradiction).
    reflexivity.
Qed.
End LegalityCheckOrder.

(** X4. The legality-check launch of either distribution leaves the same
    heap under every schedule that runs the units [0 .. N-1], in any order
    and any number of times each: one violating element sets the flag to
    -1 wherever it comes in the schedule.  The parameter buffer is distinct
    from the flag. *)
Theorem X4_check_launch_any_order
    (order : list index_t) (N : nat) (params flag : ptr) (h : heap) q j
    (Hdistinct : params <> flag)
    (Hcover : forall k, In k order <-> (k < N)%nat) :
  Launch_order order (fun i => check_legal_a_kernel i params flag) h q j
    = Launch N (fun i => check_legal_a_kernel i params flag) h q j /\
  Launch_order order (fun i => check_legal_scale_kernel i params flag) h q j
    = Launch N (fun i => check_legal_scale_kernel i params flag) h q j.
Proof.
  split.
  - now apply (check_any_order (fun x => x <= 0) (fun x => Rle_dec x 0)).
  - now apply (check_any_order (fun x => x < 0) (fun x => Rlt_dec x 0)).
Qed.

Lemma X4_check_launch_any_order_witness :
  Launch_order [2; 0; 1; 0]%nat (fun i => check_legal_a_kernel i 0%nat 3%nat)
    ex_heap_zero 3%nat 0%nat
  = Launch 3 (fun i => check_legal_a_kernel i 0%nat 3%nat) ex_heap_zero 3%nat 0%nat.
Proof.
  assert (Hd : 0%nat <> 3%nat) by discriminate.
  assert (Hcover : forall k, In k [2; 0; 1; 0]%nat <-> (k < 3)%nat)
    by (intros k; simpl; lia).
  exact (proj1 (X4_check_launch_any_order [2; 0; 1; 0]%nat 3 0%nat 3%nat
                  ex_heap_zero 3%nat 0%nat Hd Hcover)).
Defined.

(** X5. Running the legality check a second time changes nothing: the heap
    after two check launches over the same parameter tensor is the heap
    after one, so the verdict read from the flag is the same.  The
    parameter buffer is distinct from the flag. *)
Theorem X5_check_launch_idempotent
    (N : nat) (params flag : ptr) (h : heap) q j
    (Hdistinct : params <> flag) :
  Launch N (fun i => check_legal_a_kernel i params flag)
    (Launch N (fun i => check_legal_a_kernel i params flag) h) q j
    = Launch N (fun i => check_legal_a_kernel i params flag) h q j /\
  Launch N (fun i => check_legal_scale_kernel i params flag)
    (Launch N (fun i => check_legal_scale_kernel i params flag) h) q j
    = Launch N (fun i => check_legal_scale_kernel i params flag) h q j.
Proof.
  split.
  - now apply (check_twice (fun x => x <= 0) (fun x => Rle_dec x 0)).
  - now apply (check_twice (fun x => x < 0) (fun x => Rlt_dec x 0)).
Qed.

Lemma X5_check_launch_idempotent_witness :
  Launch 3 (fun i => check_legal_a_kernel i 0%nat 3%nat)
    (Launch 3 (fun i => check_legal_a_kernel i 0%nat 3%nat) ex_heap_zero) 3%nat 0%nat
  = Launch 3 (fun i => check_legal_a_kernel i 0%nat 3%nat) ex_heap_zero 3%nat 0%nat.
Proof.
  assert (Hd : 0%nat <> 3%nat) by discriminate.
  exact (proj1 (X5_check_launch_idempotent 3 0%nat 3%nat ex_heap_zero 3%nat 0%nat Hd)).
Defined.

(** ** The Rayleigh transform as a function of its scale *)

Lemma rayleigh_transform_derivative (t sv : R) :
  derivable_pt_lim (fun s => s * t) sv t.
Proof.
  assert (H : derivable_pt_lim (mult_real_fct t id) sv (t * 1)).
  { apply derivable_pt_lim_scal. apply derivable_pt_lim_id. }
  rewrite Rmult_1_r in H.
  apply (derivable_pt_lim_ext (mult_real_fct t id)); [|exact H].
  intros z. unfold mult_real_fct, id. ring.
Qed.

(** X7. What the Rayleigh kernels leave in the noise slot is the derivative
    of the output with respect to the scale: the output is the scale times
    that value, and [fun s => s * sqrt (-2 * ln u)] has that value as its
    derivative at the scale used. *)
Theorem X7_rayleigh_noise_slot_is_gradient
    i stride os (P T O : ptr) (sv : R) (h : heap)
    (Hpt : P <> T) (Hto : T <> O) :
  scalar_rayleigh_kernel i sv T O h O i = sv * scalar_rayleigh_kernel i sv T O h T i /\
  derivable_pt_lim (fun s => s * sqrt (-2 * ln (h T i))) sv
    (scalar_rayleigh_kernel i sv T O h T i) /\
  rayleigh_kernel i stride os P T O h O i
    = h P (dot (unravel i os) stride) * rayleigh_kernel i stride os P T O h T i /\
  derivable_pt_lim (fun s => s * sqrt (-2 * ln (h T i)))
    (h P (dot (unravel i os) stride))
    (rayleigh_kernel i stride os P T O h T i).
Proof.
  rewrite scalar_rayleigh_kernel_out, rayleigh_kernel_out by assumption.
  rewrite scalar_rayleigh_kernel_threshold, rayleigh_kernel_threshold by assumption.
  repeat split; try reflexivity; apply rayleigh_transform_derivative.
Qed.

Lemma X7_rayleigh_noise_slot_is_gradient_witness :
  derivable_pt_lim (fun s => s * sqrt (-2 * ln (ex_unit_heap 2%nat 5%nat))) 3
    (scalar_rayleigh_kernel 5%nat 3 2%nat 1%nat ex_unit_heap 2%nat 5%nat).
Proof.
  assert (Hpt : 0%nat <> 2%nat) by discriminate.
  assert (Hto : 2%nat <> 1%nat) by discriminate.
  destruct (X7_rayleigh_noise_slot_is_gradient 5%nat [1; 0]%nat [3; 4]%nat
              0%nat 2%nat 1%nat 3 ex_unit_heap Hpt Hto) as [_ [H _]].
  exact H.
Defined.

(** ** The two paths of a forward call *)

(** X10. When the scalar parameter is present the tensor path is not taken
    at all: the outcome and the heap of the call do not depend on the
    inputs vector, which may be empty, on the request types, or on the shape
    utilities. *)
Theorem X10_scalar_path_ignores_inputs
    F S G F' S' G' ctx (req req' : list OpReqType) (inputs inputs' : list TBlob)
    (outputs : list TBlob) h
    (pp : NumpyParetoParam) (pr : NumpyRayleighParam) (av sv : float)
    (Ha : a pp = Some av) (Hs : scale pr = Some sv) :
  NumpyParetoForward F S G pp ctx inputs req outputs h
    = NumpyParetoForward F' S' G' pp ctx inputs' req' outputs h /\
  NumpyRayleighForward F S G pr ctx inputs req outputs h
    = NumpyRayleighForward F' S' G' pr ctx inputs' req' outputs h.
Proof.
  split; run_forward; [rewrite Ha | rewrite Hs]; reflexivity.
Qed.

Lemma X10_scalar_path_ignores_inputs_witness :
  NumpyParetoForward ex_FillShape ex_SWITCH ex_get
    (mkNumpyParetoParam (Some (Finite 2)) None) ex_ctx [ex_in] [] [ex_out; ex_noise] ex_heap
  = NumpyParetoForward (fun _ _ _ => None) (fun _ => None) (fun _ _ => None)
      (mkNumpyParetoParam (Some (Finite 2)) None) ex_ctx [] [kWriteTo] [ex_out; ex_noise] ex_heap.
Proof.
  exact (proj1 (X10_scalar_path_ignores_inputs
                  ex_FillShape ex_SWITCH ex_get
                  (fun _ _ _ => None) (fun _ => None) (fun _ _ => None)
                  ex_ctx [] [kWriteTo] [ex_in] [] [ex_out; ex_noise] ex_heap
                  (mkNumpyParetoParam (Some (Finite 2)) None)
                  (mkNumpyRayleighParam (Some (Finite 3)) None)
                  (Finite 2) (Finite 3) eq_refl eq_refl)).
Defined.

(** X11. A parameter tensor that holds one value [v] everywhere gives, on
    the tensor path, the output the scalar path gives for the scalar [v]:
    slot by slot for Pareto ([v > 0]) and for Rayleigh ([v >= 0]), and for
    Rayleigh the noise buffers agree as well. *)
Theorem X11_constant_tensor_matches_scalar
    FillShape BROADCAST_NDIM_SWITCH get ctx req
    (i0 : TBlob) irest inputs (o0 o1 : TBlob) orest h (v : R)
    ndim NDim nl no os ls i
    (Hi0 : (i < TBlob_Size o0)%nat) (Hi1 : (i < TBlob_Size o1)%nat)
    (Hnw : dptr_ o1 <> workspace ctx) (Hpw : dptr_ i0 <> workspace ctx)
    (Hpn : dptr_ i0 <> dptr_ o1) (Hno : dptr_ o1 <> dptr_ o0)
    (Hpo : dptr_ i0 <> dptr_ o0)
    (Hconst : forall k, h (dptr_ i0) k = v)
    (HF : FillShape (shape_ i0) (shape_ i0) (shape_ o0) = Some (ndim, nl, no))
    (HS : BROADCAST_NDIM_SWITCH ndim = Some NDim)
    (Hos : get NDim no = Some os) (Hls : get NDim nl = Some ls) :
  (v > 0 ->
   forall pt ps, a pt = None -> a ps = Some (Finite v) ->
     snd (NumpyParetoForward FillShape BROADCAST_NDIM_SWITCH get pt ctx
            (i0 :: irest) req (o0 :: o1 :: orest) h) (dptr_ o0) i
     = snd (NumpyParetoForward FillShape BROADCAST_NDIM_SWITCH get ps ctx
              inputs req (o0 :: o1 :: orest) h) (dptr_ o0) i) /\
  (v >= 0 ->
   forall pt ps, scale pt = None -> scale ps = Some (Finite v) ->
     snd (NumpyRayleighForward FillShape BROADCAST_NDIM_SWITCH get pt ctx
            (i0 :: irest) req (o0 :: o1 :: orest) h) (dptr_ o0) i
     = snd (NumpyRayleighForward FillShape BROADCAST_NDIM_SWITCH get ps ctx
              inputs req (o0 :: o1 :: orest) h) (dptr_ o0) i /\
     snd (NumpyRayleighForward FillShape BROADCAST_NDIM_SWITCH get pt ctx
            (i0 :: irest) req (o0 :: o1 :: orest) h) (dptr_ o1) i
     = snd (NumpyRayleighForward FillShape BROADCAST_NDIM_SWITCH get ps ctx
              inputs req (o0 :: o1 :: orest) h) (dptr_ o1) i).
Proof.
  assert (Hwn : workspace ctx <> dptr_ o1) by congruence.
  split; intros Hv pt ps Ht Hsc.
  - rewrite (pareto_tensor_ok FillShape BROADCAST_NDIM_SWITCH get ctx req i0 irest
               o0 o1 orest h ndim NDim nl no os ls Hwn Hpw Hpn HF HS Hos Hls pt Ht)
      by (intros k _; rewrite Hconst; exact Hv).
    rewrite (pareto_scalar_ok _ _ _ _ _ _ _ _ _ _ _ _ Hsc Hv). simpl.
    rewrite pareto_tensor_out, pareto_scalar_out by assumption.
    now rewrite Hconst.
  - rewrite (rayleigh_tensor_ok FillShape BROADCAST_NDIM_SWITCH get ctx req i0 irest
               o0 o1 orest h ndim NDim nl no os ls Hwn Hpw Hpn HF HS Hos Hls pt Ht)
      by (intros k _; rewrite Hconst; exact Hv).
    rewrite (rayleigh_scalar_ok _ _ _ _ _ _ _ _ _ _ _ _ Hsc Hv). simpl.
    rewrite rayleigh_tensor_out, rayleigh_scalar_out by assumption.
    rewrite rayleigh_tensor_noise, rayleigh_scalar_noise by assumption.
    now rewrite Hconst.
Qed.

Lemma X11_constant_tensor_matches_scalar_witness :
  snd (NumpyParetoForward ex_FillShape ex_SWITCH ex_get
         (mkNumpyParetoParam None None) ex_ctx
         [ex_in] [] [ex_out; ex_noise] ex_heap) 1%nat 5%nat
  = snd (NumpyParetoForward ex_FillShape ex_SWITCH ex_get
           (mkNumpyParetoParam (Some (Finite 2)) None) ex_ctx
           [] [] [ex_out; ex_noise] ex_heap) 1%nat 5%nat.
Proof.
  assert (Hi : (5 < 12)%nat) by lia.
  assert (Hnw : dptr_ ex_noise <> workspace ex_ctx) by (simpl; discriminate).
  assert (Hpw : dptr_ ex_in <> workspace ex_ctx) by (simpl; discriminate).
  assert (Hpn : dptr_ ex_in <> dptr_ ex_noise) by (simpl; discriminate).
  assert (Hno : dptr_ ex_noise <> dptr_ ex_out) by (simpl; discriminate).
  assert (Hpo : dptr_ ex_in <> dptr_ ex_out) by (simpl; discriminate).
  assert (Hconst : forall k, ex_heap (dptr_ ex_in) k = 2) by reflexivity.
  assert (Hv : 2 > 0) by lra.
  exact (proj1 (X11_constant_tensor_matches_scalar ex_FillShape ex_SWITCH ex_get
                  ex_ctx [] ex_in [] [] ex_out ex_noise [] ex_heap 2
                  2%nat 2%nat [3; 1]%nat [3; 4]%nat [3; 4]%nat [3; 1]%nat 5%nat
                  Hi Hi Hnw Hpw Hpn Hno Hpo Hconst eq_refl eq_refl eq_refl eq_refl)
          Hv (mkNumpyParetoParam None None) (mkNumpyParetoParam (Some (Finite 2)) None)
          eq_refl eq_refl).
Defined.

(** X13. With the declared defaults a Rayleigh call takes the scalar path
    with scale 1: it returns whatever the inputs are, and for a draw in
    (0,1) the output slot and the noise slot both hold
    [sqrt (-2 * ln u)]. *)
Theorem X13_rayleigh_default_scale
    FillShape BROADCAST_NDIM_SWITCH get ctx req inputs (o0 o1 : TBlob) orest h i
    (Hi0 : (i < TBlob_Size o0)%nat) (Hi1 : (i < TBlob_Size o1)%nat)
    (Hu : 0 < prnd ctx i < 1)
    (Hno : dptr_ o1 <> dptr_ o0) :
  exists h',
    NumpyRayleighForward FillShape BROADCAST_NDIM_SWITCH get
      NumpyRayleighParam_default ctx inputs req (o0 :: o1 :: orest) h = (inr tt, h') /\
    h' (dptr_ o0) i = sqrt (-2 * ln (prnd ctx i)) /\
    h' (dptr_ o1) i = sqrt (-2 * ln (prnd ctx i)).
Proof.
  eexists. split; [|split].
  - apply rayleigh_scalar_ok; [reflexivity | lra].
  - rewrite rayleigh_scalar_out by assumption. ring.
  - now apply rayleigh_scalar_noise.
Qed.

Lemma X13_rayleigh_default_scale_witness :
  exists h',
    NumpyRayleighForward ex_FillShape ex_SWITCH ex_get
      NumpyRayleighParam_default ex_ctx [] [] [ex_out; ex_noise] ex_heap = (inr tt, h') /\
    h' 1%nat 5%nat = sqrt (-2 * ln (1 / 2)) /\
    h' 2%nat 5%nat = sqrt (-2 * ln (1 / 2)).
Proof.
  assert (Hu : 0 < prnd ex_ctx 5%nat < 1) by (simpl; lra).
  assert (Hi : (5 < 12)%nat) by lia.
  assert (Hno : dptr_ ex_noise <> dptr_ ex_out) by (simpl; discriminate).
  exact (X13_rayleigh_default_scale ex_FillShape ex_SWITCH ex_get ex_ctx [] []
           ex_out ex_noise [] ex_heap 5%nat Hi Hi Hu Hno).
Defined.

(** ** The attribute dictionary *)

Lemma dict_assign_same k v d : dict_assign k v d k = Some v.
Proof. unfold dict_assign. now rewrite String.eqb_refl. Qed.

Lemma dict_assign_other k v d k' : k' <> k -> dict_assign k v d k' = d k'.
Proof.
  intros Hne. unfold dict_assign.
  destruct (String.eqb_spec k' k); [contradiction | reflexivity].
Qed.

(** X12. [SetAttrDict] of either parameter struct makes the key of the
    parameter (["a"], ["scale"]) and the key ["size"] map to the rendered
    fields, leaves every other key of the dictionary as it was, and
    overrides what an earlier [SetAttrDict] of the same struct wrote. *)
Theorem X12_SetAttrDict_keys
    (show_float : option float -> string) (show_size : option (list nat) -> string)
    (pp pp' : NumpyParetoParam) (pr pr' : NumpyRayleighParam)
    (d : attr_dict) (k : string) :
  NumpyParetoParam_SetAttrDict show_float show_size pp d "a"%string
    = Some (show_float (a pp)) /\
  NumpyParetoParam_SetAttrDict show_float show_size pp d "size"%string
    = Some (show_size (pareto_size pp)) /\
  (k <> "a"%string -> k <> "size"%string ->
   NumpyParetoParam_SetAttrDict show_float show_size pp d k = d k) /\
  NumpyParetoParam_SetAttrDict show_float show_size pp
    (NumpyParetoParam_SetAttrDict show_float show_size pp' d) k
    = NumpyParetoParam_SetAttrDict show_float show_size pp d k /\
  NumpyRayleighParam_SetAttrDict show_float show_size pr d "scale"%string
    = Some (show_float (scale pr)) /\
  NumpyRayleighParam_SetAttrDict show_float show_size pr d "size"%string
    = Some (show_size (rayleigh_size pr)) /\
  (k <> "scale"%string -> k <> "size"%string ->
   NumpyRayleighParam_SetAttrDict show_float show_size pr d k = d k) /\
  NumpyRayleighParam_SetAttrDict show_float show_size pr
    (NumpyRayleighParam_SetAttrDict show_float show_size pr' d) k
    = NumpyRayleighParam_SetAttrDict show_float show_size pr d k.
Proof.
  unfold NumpyParetoParam_SetAttrDict, NumpyRayleighParam_SetAttrDict. cbv zeta.
  split; [|split; [|split; [|split; [|split; [|split; [|split]]]]]].
  - rewrite dict_assign_other by discriminate. apply dict_assign_same.
  - apply dict_assign_same.
  - intros Ha Hs. now rewrite !dict_assign_other.
  - unfold dict_assign.
    destruct (String.eqb k "size"); [reflexivity|].
    destruct (String.eqb k "a"); reflexivity.
  - rewrite dict_assign_other by discriminate. apply dict_assign_same.
  - apply dict_assign_same.
  - intros Ha Hs. now rewrite !dict_assign_other.
  - unfold dict_assign.
    destruct (String.eqb k "size"); [reflexivity|].
    destruct (String.eqb k "scale"); reflexivity.
Qed.
